(** * Assimilate project explorer: a shallow embedding of
      [examples/project-explorer.py] and the properties of its workflow.

    The script drives a generated REST client.  The client is modelled as a
    deterministic server: every endpoint maps the server state to a new state
    and either a typed response or a raised exception.  The explorer itself
    is written in a state-and-exception monad over a [World] that holds the
    server, the history of the calls made, the lines printed, the files
    written, the clock and the explorer's own fields. *)

From Stdlib Require Import String Ascii List ZArith Lia Bool Arith DecimalString FinFun.
Import ListNotations.
Open Scope string_scope.

Set Implicit Arguments.

(** ** Python values *)

(** An attribute of a response object (or a key of a dict): it may be
    missing, hold [None], or hold a value. *)
Inductive attr (A : Type) : Type :=
| Missing
| PyNone
| Val (a : A).
Arguments Missing {A}.
Arguments PyNone {A}.

(** [str(x)] of a value that may be [None]. *)
Definition py_str (x : option string) : string :=
  match x with
  | Some s => s
  | None => "None"
  end.

Definition str_nat (n : nat) : string := NilZero.string_of_uint (Nat.to_uint n).
Definition str_Z (z : Z) : string := NilZero.string_of_int (Z.to_int z).

(** Strings hold text in UTF-8: a byte [10xxxxxx] continues the character
    begun before it. *)
Definition continuation (c : ascii) : bool :=
  match c with
  | Ascii _ _ _ _ _ _ b6 b7 => b7 && negb b6
  end.

(** [s[:n]] on a [str]: its first [n] characters, each with its
    continuation bytes. *)
Fixpoint slice_to (n : nat) (s : string) : string :=
  match s with
  | EmptyString => EmptyString
  | String c rest =>
      if continuation c then String c (slice_to n rest)
      else match n with
           | 0 => EmptyString
           | S n' => String c (slice_to n' rest)
           end
  end.

(** An attribute seen through a conversion of its value. *)
Definition attr_map {A B} (f : A -> B) (a : attr A) : attr B :=
  match a with
  | Missing => Missing
  | PyNone => PyNone
  | Val x => Val (f x)
  end.

(** Truth value of a string: the empty string is false. *)
Definition truthy (s : string) : bool :=
  match s with
  | EmptyString => false
  | String _ _ => true
  end.

(** ** Response models of the generated client *)

Module SystemProperties.
Record t := { system_name : string; version : string; build : string }.
End SystemProperties.

Module Project.
Record t := { name : string; modified : string }.
End Project.

Module Group.
Record t :=
  { uuid : string;
    name : string;
    active : bool;
    constructs : option (list string) }.
End Group.

Module Shot.
Record t :=
  { uuid : string;
    name : string;
    file : attr string;
    length : attr Z;
    timecode : attr string }.
End Shot.

Module Slot.
Record t := { shots : attr (list Shot.t) }.
End Slot.

Module Resolution.
Record t := { w : attr Z; h : attr Z }.
End Resolution.

Module Construct.
Record t :=
  { name : attr string;
    resolution : attr Resolution.t;
    fps : attr string;
    slots : attr (list Slot.t) }.
End Construct.

Module QueueItem.
Record t :=
  { name : attr string;
    status : attr string;
    frames_done : attr Z;
    frames_total : attr Z }.
End QueueItem.

Module ImageSnapshot.
Record t := { uuid : string; frame : Z; proxy : bool }.
End ImageSnapshot.

Module PlaymodeData.
Record t :=
  { mode : string;
    loop : string;
    audio : string;
    speed : Z;
    range : bool }.
End PlaymodeData.

(** The raw response of the snapshot endpoint: the value of its
    [Content-Type] header, if any, and its [data] attribute, if it has one. *)
Module HTTPResponse.
Record t := { content_type : option string; data : option string }.
End HTTPResponse.

(** ** Exceptions *)

(** The bytes of an error body, by what the script does with them: a
    body is tested for truth, then decoded and parsed as JSON.  [Structured]
    holds the document as [json.dumps(_, indent=4)] prints it; on
    [Unstructured] bytes decoding or parsing raises a [ValueError]. *)
Inductive Body : Type :=
| EmptyBytes
| Structured (raw : string) (document : string)
| Unstructured (raw : string).

Module ApiException.
Record t := { status : Z; reason : string; body : option Body }.
End ApiException.

Inductive exn : Type :=
| ApiError (e : ApiException.t)
| AttributeError (msg : string)
| TypeError (msg : string)
| ValueError (msg : string)
| IndexError (msg : string)
| OSError (msg : string)
| OtherError (msg : string).

Inductive result (A : Type) : Type :=
| Ok (a : A)
| Raise (e : exn).
Arguments Raise {A} e.

(** ** The remote client *)

Module Api.

(** The endpoints the explorer calls, with their arguments. *)
Inductive call : Type :=
| get_system_properties
| get_projects
| do_application_project_exit
| do_application_project_enter (project_name : string)
| get_projects_current
| get_groups (level : string)
| select_group (group_uuid level : string)
| get_constructs_current (level : string)
| do_application_render_snapshot (body : ImageSnapshot.t)
| get_application_render_queue
| do_application_player_enter_timeline (construct_uuid : string)
| do_application_player_enter_timeline_current
| set_application_player_playmode (body : PlaymodeData.t).

(** A client over a server with states [St]: every endpoint moves the
    server and returns a response or raises. *)
Record Client (St : Type) :=
  { system_properties : St -> St * result SystemProperties.t;
    projects : St -> St * result (option (list Project.t));
    project_exit : St -> St * result unit;
    project_enter : string -> St -> St * result unit;
    projects_current : St -> St * result Project.t;
    groups : string -> St -> St * result (option (list Group.t));
    group_select : string -> string -> St -> St * result Group.t;
    constructs_current : string -> St -> St * result (option Construct.t);
    render_snapshot : ImageSnapshot.t -> St -> St * result HTTPResponse.t;
    render_queue : St -> St * result (option (list QueueItem.t));
    player_enter_timeline : string -> St -> St * result unit;
    player_enter_timeline_current : St -> St * result unit;
    player_playmode : PlaymodeData.t -> St -> St * result unit }.

End Api.

Inductive outcome : Type :=
| Returned
| Failed (e : exn).

Record event := { ev_call : Api.call; ev_outcome : outcome }.

Definition outcome_of {A} (r : result A) : outcome :=
  match r with
  | Ok _ => Returned
  | Raise e => Failed e
  end.

Record datetime :=
  { year : nat; month : nat; day : nat; hour : nat; minute : nat; second : nat }.

Definition pad2 (n : nat) : string :=
  if Nat.ltb n 10 then "0" ++ str_nat n else str_nat n.

Definition pad4 (n : nat) : string :=
  if Nat.ltb n 10 then "000" ++ str_nat n
  else if Nat.ltb n 100 then "00" ++ str_nat n
  else if Nat.ltb n 1000 then "0" ++ str_nat n
  else str_nat n.

(** [strftime("%Y%m%d_%H%M%S")] *)
Definition strftime (t : datetime) : string :=
  pad4 (year t) ++ pad2 (month t) ++ pad2 (day t) ++ "_"
  ++ pad2 (hour t) ++ pad2 (minute t) ++ pad2 (second t).

(** The line feed of ["\n..."] literals. *)
Definition nl : string := String (ascii_of_nat 10) EmptyString.

(** The summary [get_all_shots] builds for a shot. *)
Module ShotInfo.
Record t :=
  { uuid : string;
    name : string;
    slot_idx : nat;
    version_idx : nat;
    file : option string;
    length : option Z;
    timecode : option string }.
End ShotInfo.

(** [safe_get_attr(obj, attr_name, default)]: the default for [None] and for
    a missing attribute, the attribute's value otherwise, which may be
    [None]. *)
Definition safe_get_attr {R A} (obj : option R) (attr_name : R -> attr A)
    (default : A) : option A :=
  match obj with
  | None => Some default
  | Some o =>
      match attr_name o with
      | Missing => Some default
      | PyNone => None
      | Val a => Some a
      end
  end.

(** The world the explorer runs in.  [files] are the files written, in
    order; [disk] tells the paths that can be opened for writing. *)
Record World (St : Type) :=
  { server : St;
    trace : list event;
    stdout : list string;
    files : list (string * string);
    clock : datetime;
    disk : string -> bool;
    current_group : option Group.t;
    current_construct : option (option Construct.t) }.

Definition M (St A : Type) : Type := World St -> World St * result A.

(** The error of [open] on a path that cannot be opened for writing; the
    kind of the error is modelled, not its text. *)
Definition open_error (path : string) : exn :=
  OSError ("cannot open '" ++ path ++ "'").

Section Monad.

Context {St : Type}.

Definition ret {A} (a : A) : M St A := fun w => (w, Ok a).

Definition raise {A} (e : exn) : M St A := fun w => (w, Raise e).

Definition bind {A B} (m : M St A) (k : A -> M St B) : M St B :=
  fun w =>
    match m w with
    | (w', Ok a) => k a w'
    | (w', Raise e) => (w', Raise e)
    end.

(** [try: m except ApiException as e: h e] *)
Definition except_api {A} (m : M St A) (h : ApiException.t -> M St A) : M St A :=
  fun w =>
    match m w with
    | (w', Raise (ApiError e)) => h e w'
    | other => other
    end.

(** [try: m except ApiException as e: h e except Exception as e: h' e]:
    an exception raised by a handler is not caught by the other. *)
Definition except_api_any {A} (m : M St A) (h : ApiException.t -> M St A)
    (h' : exn -> M St A) : M St A :=
  fun w =>
    match m w with
    | (w', Raise (ApiError e)) => h e w'
    | (w', Raise e) => h' e w'
    | other => other
    end.

Definition print (line : string) : M St unit :=
  fun w =>
    ({| server := server w; trace := trace w; stdout := (stdout w ++ [line])%list;
        files := files w; clock := clock w; disk := disk w;
        current_group := current_group w;
        current_construct := current_construct w |}, Ok tt).

(** [with open(path, 'wb') as f: f.write(data)]: [open] raises an
    [OSError] on a path that cannot be opened for writing, and nothing is
    written then. *)
Definition write_file (path data : string) : M St unit :=
  fun w =>
    if disk w path
    then ({| server := server w; trace := trace w; stdout := stdout w;
             files := (files w ++ [(path, data)])%list;
             clock := clock w; disk := disk w;
             current_group := current_group w;
             current_construct := current_construct w |}, Ok tt)
    else (w, Raise (open_error path)).

Definition set_current_group (g : Group.t) : M St unit :=
  fun w =>
    ({| server := server w; trace := trace w; stdout := stdout w;
        files := files w; clock := clock w; disk := disk w;
        current_group := Some g;
        current_construct := current_construct w |}, Ok tt).

Definition set_current_construct (c : option Construct.t) : M St unit :=
  fun w =>
    ({| server := server w; trace := trace w; stdout := stdout w;
        files := files w; clock := clock w; disk := disk w;
        current_group := current_group w;
        current_construct := Some c |}, Ok tt).

Definition datetime_now : M St datetime := fun w => (w, Ok (clock w)).

(** One call of an endpoint: the server moves on and the call is recorded
    with its outcome. *)
Definition invoke {A} (c : Api.call) (endpoint : St -> St * result A) : M St A :=
  fun w =>
    let (s', r) := endpoint (server w) in
    ({| server := s';
        trace := (trace w ++ [{| ev_call := c; ev_outcome := outcome_of r |}])%list;
        stdout := stdout w; files := files w; clock := clock w;
        disk := disk w;
        current_group := current_group w;
        current_construct := current_construct w |}, r).

(** [for x in xs: body x] *)
Fixpoint for_each {A} (xs : list A) (body : A -> M St unit) : M St unit :=
  match xs with
  | [] => ret tt
  | x :: xs' => bind (body x) (fun _ => for_each xs' body)
  end.

End Monad.

Notation "x <- m ;; k" := (bind m (fun x => k))
  (at level 61, m at next level, right associativity).
Notation "m ;; k" := (bind m (fun _ => k))
  (at level 61, right associativity).

(** ** The explorer *)

(** [str(e)] of an exception, as the last handler prints it. *)
Definition str_exn (e : exn) : string :=
  match e with
  | ApiError a =>
      "(" ++ str_Z (ApiException.status a) ++ ")" ++ nl
      ++ "Reason: " ++ ApiException.reason a ++ nl
  | AttributeError msg | TypeError msg | ValueError msg
  | IndexError msg | OSError msg | OtherError msg => msg
  end.

(** Truth of [e.body]: [None] and empty bytes are false. *)
Definition body_truthy (b : option Body) : bool :=
  match b with
  | None | Some EmptyBytes => false
  | Some (Structured _ _) | Some (Unstructured _) => true
  end.

(** [repr] of the body's bytes. *)
Definition str_body (b : option Body) : string :=
  match b with
  | None => "None"
  | Some EmptyBytes => "b''"
  | Some (Structured raw _) | Some (Unstructured raw) => "b'" ++ raw ++ "'"
  end.

(** The icon [get_render_queue] looks up for a status. *)
Definition status_icon (status : option string) : string :=
  match status with
  | None => "❓"
  | Some s =>
      if s =? "Idle" then "⚪"
      else if s =? "waiting" then "⏸️"
      else if s =? "processing" then "🔄"
      else if s =? "finished" then "✅"
      else if s =? "error" then "❌"
      else "❓"
  end.

(** ["=" * 60] *)
Definition rule60 : string :=
  "============================================================".

Section AssimilateProjectExplorer.

Variable St : Type.
Variable api : Api.Client St.

Local Abbreviation M := (M St).

(** [json.dumps(json.loads(e.body.decode('utf-8')), indent=4)].  Of the
    error that decoding or parsing raises on bytes that are no JSON document
    the kind is modelled, a [ValueError]; its text, which in Python depends
    on the bytes, is not. *)
Definition error_dict (e : ApiException.t) : M string :=
  match ApiException.body e with
  | None => raise (AttributeError "'NoneType' object has no attribute 'decode'")
  | Some EmptyBytes => raise (ValueError "Expecting value: line 1 column 1 (char 0)")
  | Some (Structured _ document) => ret document
  | Some (Unstructured _) => raise (ValueError "Expecting value")
  end.

(** [len(xs)] or [for x in xs] on a response attribute that may be [None]. *)
Definition sequence {A} (xs : option (list A)) (msg : string) : M (list A) :=
  match xs with
  | Some l => ret l
  | None => raise (TypeError msg)
  end.

(** STEP 1: Retrieve system information *)
Definition get_system_info : M SystemProperties.t :=
  print "🔧 Retrieving system info..." ;;
  except_api
    (system <- invoke Api.get_system_properties (Api.system_properties api) ;;
     print ("   System name: " ++ SystemProperties.system_name system) ;;
     print ("   Software version: " ++ SystemProperties.version system ++ " "
            ++ "(build " ++ SystemProperties.build system ++ ")") ;;
     ret system)
    (fun e =>
       (if body_truthy (ApiException.body e)
        then (error <- error_dict e ;; print ("❌ API Error: " ++ error))
        else ret tt) ;;
       raise (ApiError e)).

(** STEP 2: Project management *)
Definition list_projects : M (list Project.t) :=
  print (nl ++ "📁 Retrieving projects...") ;;
  except_api
    (response <- invoke Api.get_projects (Api.projects api) ;;
     print (match response with
            | Some _ => "<class 'list'>"
            | None => "<class 'NoneType'>"
            end) ;;
     projects <- sequence response "'NoneType' object is not iterable" ;;
     for_each projects (fun proj =>
       print ("   - " ++ Project.name proj
              ++ " (last modified: " ++ Project.modified proj ++ ")")) ;;
     ret projects)
    (fun e =>
       (if body_truthy (ApiException.body e)
        then (error <- error_dict e ;;
              print ("❌ Error retrieving projects: " ++ error))
        else ret tt) ;;
       ret []).

Definition enter_project (project_name : string) : M Project.t :=
  except_api
    (invoke Api.do_application_project_exit (Api.project_exit api))
    (fun e => ret tt) ;;
  print (nl ++ "🎬 Opening project '" ++ project_name ++ "'...") ;;
  except_api
    (invoke (Api.do_application_project_enter project_name)
            (Api.project_enter api project_name) ;;
     current <- invoke Api.get_projects_current (Api.projects_current api) ;;
     print ("   ✅ Current project: " ++ Project.name current) ;;
     ret current)
    (fun e =>
       (if body_truthy (ApiException.body e)
        then (error <- error_dict e ;;
              print ("❌ Error opening project: " ++ error))
        else ret tt) ;;
       raise (ApiError e)).

(** STEP 3: Explore groups and Timelines *)
Definition get_groups (detailed : bool) : M (list Group.t) :=
  print (nl ++ "📂 Retrieving groups...") ;;
  except_api
    (let level := if detailed then "ALL" else "" in
     response <- invoke (Api.get_groups level) (Api.groups api level) ;;
     groups <- sequence response "object of type 'NoneType' has no len()" ;;
     print ("   " ++ str_nat (List.length groups) ++ " group(s) found:") ;;
     for_each groups (fun group =>
       let name := Group.name group in
       let status := if Group.active group then " (active)" else "" in
       print ("   - " ++ name ++ status) ;;
       if detailed
       then match Group.constructs group with
            | Some (c :: cs) =>
                print ("     └─ " ++ str_nat (List.length (c :: cs))
                       ++ " timeline(s)")
            | Some [] | None => ret tt
            end
       else ret tt) ;;
     ret groups)
    (fun e =>
       error <- error_dict e ;;
       print ("❌ Error retrieving groups: " ++ error) ;;
       ret []).

Definition select_group (group_uuid : string) : M Group.t :=
  print (nl ++ "👉 Selecting group...") ;;
  except_api
    (result <- invoke (Api.select_group group_uuid "ALL")
                      (Api.group_select api group_uuid "ALL") ;;
     set_current_group result ;;
     let name :=
       safe_get_attr (Some result) (fun g => Val (Group.name g)) "Unknown" in
     print ("   ✅ Group '" ++ py_str name ++ "' is now active") ;;
     ret result)
    (fun e =>
       print ("❌ Error selecting group: " ++ ApiException.reason e) ;;
       raise (ApiError e)).

(** STEP 4: Collect shots and generate thumbnails *)
Definition get_current_construct : M (option Construct.t) :=
  print (nl ++ "🎞️  Retrieving active timeline...") ;;
  except_api
    (construct <- invoke (Api.get_constructs_current "ALL")
                         (Api.constructs_current api "ALL") ;;
     set_current_construct construct ;;
     let name := safe_get_attr construct Construct.name "Unknown" in
     (* the default [{}] is [Some None]: like [None], it is false *)
     let resolution :=
       safe_get_attr construct
         (fun c => attr_map Some (Construct.resolution c)) None in
     let fps := safe_get_attr construct Construct.fps "0" in
     print ("   Timeline: " ++ py_str name) ;;
     match resolution with
     | Some (Some resolution) =>
         let w :=
           safe_get_attr (Some resolution)
             (fun r => attr_map str_Z (Resolution.w r)) "?" in
         let h :=
           safe_get_attr (Some resolution)
             (fun r => attr_map str_Z (Resolution.h r)) "?" in
         print ("   Resolution: " ++ py_str w ++ "x" ++ py_str h)
     | Some None | None => ret tt
     end ;;
     print ("   FPS: " ++ py_str fps) ;;
     ret construct)
    (fun e =>
       print ("❌ Error retrieving construct: " ++ ApiException.reason e) ;;
       raise (ApiError e)).

(** The inner loop of [get_all_shots]:
    [for version_idx, shot in enumerate(slot_shots)]. *)
Fixpoint collect_versions (slot_idx version_idx : nat)
    (slot_shots : list Shot.t) (all_shots : list ShotInfo.t)
    : M (list ShotInfo.t) :=
  match slot_shots with
  | [] => ret all_shots
  | shot :: rest =>
      let shot_info :=
        {| ShotInfo.uuid := Shot.uuid shot;
           ShotInfo.name := Shot.name shot;
           ShotInfo.slot_idx := slot_idx;
           ShotInfo.version_idx := version_idx;
           ShotInfo.file := safe_get_attr (Some shot) Shot.file "N/A";
           ShotInfo.length := safe_get_attr (Some shot) Shot.length 0%Z;
           ShotInfo.timecode :=
             safe_get_attr (Some shot) Shot.timecode "00:00:00:00" |} in
      print ("   Slot " ++ str_nat slot_idx ++ ", Version "
             ++ str_nat version_idx ++ ": " ++ ShotInfo.name shot_info ++ " "
             ++ "(" ++ py_str (option_map str_Z (ShotInfo.length shot_info))
             ++ " frames)") ;;
      collect_versions slot_idx (S version_idx) rest
        (all_shots ++ [shot_info])%list
  end.

(** The outer loop: [for slot_idx, slot in enumerate(slots)]. *)
Fixpoint collect_slots (slot_idx : nat) (slots : list Slot.t)
    (all_shots : list ShotInfo.t) : M (list ShotInfo.t) :=
  match slots with
  | [] => ret all_shots
  | slot :: rest =>
      slot_shots <- sequence (safe_get_attr (Some slot) Slot.shots [])
                      "'NoneType' object is not iterable" ;;
      all_shots' <- collect_versions slot_idx 0 slot_shots all_shots ;;
      collect_slots (S slot_idx) rest all_shots'
  end.

Definition get_all_shots : M (list ShotInfo.t) :=
  print (nl ++ "🎬 Collecting shots...") ;;
  except_api
    (construct <- invoke (Api.get_constructs_current "ALL")
                         (Api.constructs_current api "ALL") ;;
     slots <- sequence (safe_get_attr construct Construct.slots [])
                "'NoneType' object is not iterable" ;;
     all_shots <- collect_slots 0 slots [] ;;
     print ("   Total: " ++ str_nat (List.length all_shots)
            ++ " shot(s) found") ;;
     ret all_shots)
    (fun e =>
       print ("❌ Error collecting shots: " ++ ApiException.reason e) ;;
       ret []).

Definition generate_thumbnail (shot_uuid : string) (frame : Z)
    (output_path : option string) : M (option string) :=
  output_path <-
    match output_path with
    | None =>
        now <- datetime_now ;;
        let timestamp := strftime now in
        ret ("/tmp/thumbnail_" ++ slice_to 8 shot_uuid ++ "_"
             ++ timestamp ++ ".jpg")
    | Some path => ret path
    end ;;
  except_api
    (let snapshot :=
       {| ImageSnapshot.uuid := shot_uuid;
          ImageSnapshot.frame := frame;
          ImageSnapshot.proxy := true |} in
     response <- invoke (Api.do_application_render_snapshot snapshot)
                        (Api.render_snapshot api snapshot) ;;
     match HTTPResponse.content_type response with
     | Some content_type =>
         if content_type =? "image/jpeg"
         then match HTTPResponse.data response with
              | Some data => write_file output_path data
              | None => ret tt
              end
         else ret tt
     | None => ret tt
     end ;;
     ret (Some output_path))
    (fun e =>
       print ("   ⚠️  Thumbnail failed: " ++ ApiException.reason e) ;;
       ret None).

(** STEP 5: Render Queue management *)
Definition get_render_queue : M (list QueueItem.t) :=
  print (nl ++ "⏳ Render queue status...") ;;
  except_api
    (queue <- invoke Api.get_application_render_queue (Api.render_queue api) ;;
     match queue with
     | None | Some [] =>
         print "   Queue is empty" ;;
         ret []
     | Some items =>
         for_each items (fun item =>
           let name := safe_get_attr (Some item) QueueItem.name "Unknown" in
           let status := safe_get_attr (Some item) QueueItem.status "unknown" in
           let frames_done :=
             safe_get_attr (Some item) QueueItem.frames_done 0%Z in
           let frames_total :=
             safe_get_attr (Some item) QueueItem.frames_total 0%Z in
           print ("   " ++ status_icon status ++ " " ++ py_str name ++ ": "
                  ++ py_str status ++ " " ++ "("
                  ++ py_str (option_map str_Z frames_done) ++ "/"
                  ++ py_str (option_map str_Z frames_total) ++ " frames)")) ;;
         ret items
     end)
    (fun e =>
       print ("❌ Error retrieving queue: " ++ ApiException.reason e) ;;
       ret []).

(** STEP 6: Player controls (for review) *)
Definition enter_player (construct_uuid : option string) : M unit :=
  except_api
    (match construct_uuid with
     | Some uuid =>
         if truthy uuid
         then invoke (Api.do_application_player_enter_timeline uuid)
                     (Api.player_enter_timeline api uuid)
         else invoke Api.do_application_player_enter_timeline_current
                     (Api.player_enter_timeline_current api)
     | None =>
         invoke Api.do_application_player_enter_timeline_current
                (Api.player_enter_timeline_current api)
     end ;;
     print (nl ++ "▶️  Player mode activated"))
    (fun e =>
       print ("❌ Error opening player: " ++ ApiException.reason e) ;;
       raise (ApiError e)).

Definition set_playback_mode (mode : string) (frame : option Z)
    (loop : string) : M unit :=
  except_api
    (let playmode :=
       {| PlaymodeData.mode := mode;
          PlaymodeData.loop := loop;
          PlaymodeData.audio := "ON";
          PlaymodeData.speed := 1;
          PlaymodeData.range := false |} in
     invoke (Api.set_application_player_playmode playmode)
            (Api.player_playmode api playmode) ;;
     print ("   Playback: " ++ mode ++ ", Loop: " ++ loop))
    (fun e =>
       print ("❌ Error setting playback: " ++ ApiException.reason e) ;;
       raise (ApiError e)).

(** MAIN WORKFLOW: Browse through Project elements *)

(** [groups[-1]] *)
Definition last_item {A} (xs : list A) : M A :=
  match rev xs with
  | x :: _ => ret x
  | [] => raise (IndexError "list index out of range")
  end.

(** Step 6 of the workflow:
    [for i, shot in enumerate(shots[:5])], called on the slice. *)
Fixpoint generate_thumbnails (i : nat) (shots : list ShotInfo.t)
    (thumbnails : list string) : M (list string) :=
  match shots with
  | [] => ret thumbnails
  | shot :: rest =>
      print ("   Generating thumbnail for: " ++ ShotInfo.name shot ++ "...") ;;
      let thumb_path :=
        "/tmp/project_thumb_" ++ str_nat i ++ "_"
        ++ slice_to 8 (ShotInfo.uuid shot) ++ ".jpg" in
      result <- generate_thumbnail (ShotInfo.uuid shot) 0 (Some thumb_path) ;;
      thumbnails' <-
        match result with
        | Some path =>
            if truthy path
            then print ("      ✅ Saved: " ++ thumb_path) ;;
                 ret (thumbnails ++ [path])%list
            else ret thumbnails
        | None => ret thumbnails
        end ;;
      generate_thumbnails (S i) rest thumbnails'
  end.

(** The body of the [try] of [browse_project], cut where the groups have
    been returned and where the shots have been collected. *)

(** Steps 1 to 3: system check, open the project, list the groups. *)
Definition list_groups_of (project_name : string) : M (list Group.t) :=
  (* 1. System check *)
  get_system_info ;;
  (* 2. Open project *)
  enter_project project_name ;;
  (* 3. Explore and select groups *)
  get_groups true.

(** [# Select target group] *)
Definition choose_target (target_group_name : option string)
    (groups : list Group.t) : M (option Group.t) :=
  match target_group_name with
  | Some wanted =>
      if truthy wanted
      then ret (find (fun g => Group.name g =? wanted) groups)
      else (g <- last_item groups ;; ret (Some g))
  | None => g <- last_item groups ;; ret (Some g)
  end.

(** Activate the group, then steps 4 and 5: the timeline and its shots. *)
Definition collect_shots_of (target_group : Group.t) : M (list ShotInfo.t) :=
  select_group (Group.uuid target_group) ;;
  (* 4. Explore timeline *)
  construct <- get_current_construct ;;
  (* 5. Collect shots *)
  get_all_shots.

(** Steps 6 to 8 and the summary. *)
Definition review (project_name : string) (target_group : Group.t)
    (shots : list ShotInfo.t) : M bool :=
  match shots with
  | [] =>
      print "⚠️  No shots found in this timeline!" ;;
      ret false
  | _ :: _ =>
      (* 6. Generate thumbnails *)
      print (nl ++ "📸 Generating thumbnails...") ;;
      thumbnails <- generate_thumbnails 0 (firstn 5 shots) [] ;;
      (* 7. Check render queue *)
      get_render_queue ;;
      (* 8. Open player *)
      print (nl ++ "👁️  Opening player for review...") ;;
      enter_player None ;;
      set_playback_mode "PLAY_FRW" None "LOOP" ;;
      (* Summary *)
      let group_name :=
        safe_get_attr (Some target_group)
          (fun g => Val (Group.name g)) "Unknown" in
      print (nl ++ rule60) ;;
      print "✅ PROJECT EXPLORER COMPLETED" ;;
      print ("   Project: " ++ project_name) ;;
      print ("   Group: " ++ py_str group_name) ;;
      print ("   Shots processed: " ++ str_nat (List.length shots)) ;;
      print ("   Thumbnails: " ++ str_nat (List.length thumbnails)
             ++ " generated") ;;
      print rule60 ;;
      ret true
  end.

(** What follows step 3 for the groups it returned. *)
Definition browse_groups (project_name : string)
    (target_group_name : option string) (groups : list Group.t) : M bool :=
  match groups with
  | [] =>
      print "❌ No groups found!" ;;
      ret false
  | _ :: _ =>
      target_group <- choose_target target_group_name groups ;;
      match target_group with
      | None =>
          print ("❌ Group '" ++ py_str target_group_name ++ "' not found!") ;;
          ret false
      | Some target_group =>
          shots <- collect_shots_of target_group ;;
          review project_name target_group shots
      end
  end.

Definition browse_steps (project_name : string)
    (target_group_name : option string) : M bool :=
  groups <- list_groups_of project_name ;;
  browse_groups project_name target_group_name groups.

(** The banner printed before the [try]. *)
Definition banner : M unit :=
  print rule60 ;;
  print "🎬 ASSIMILATE PROJECT BROWSER - REST API" ;;
  print rule60.

(** The [except] clauses of [browse_project]: a failure of the workflow is
    printed and turned into [False]. *)
Definition report_failure (steps : M bool) : M bool :=
  except_api_any steps
    (fun e =>
       print (nl ++ "❌ API Error in workflow: " ++ ApiException.reason e) ;;
       print ("   Status code: " ++ str_Z (ApiException.status e)) ;;
       (if body_truthy (ApiException.body e)
        then print ("   Details: " ++ str_body (ApiException.body e))
        else ret tt) ;;
       ret false)
    (fun e =>
       print (nl ++ "❌ Unexpected error: " ++ str_exn e) ;;
       ret false).

Definition browse_project (project_name : string)
    (target_group_name : option string) : M bool :=
  banner ;;
  report_failure (browse_steps project_name target_group_name).

End AssimilateProjectExplorer.

(** ** The command line *)

(** [repr] of a list of names, as [print(f"... {names}")] shows it. *)
Definition repr_names (names : list string) : string :=
  "[" ++ String.concat ", " (map (fun n => "'" ++ n ++ "'") names) ++ "]".

Section Main.

Variable St : Type.
Variable api : Api.Client St.

(** [try: m except Exception as e: h e] *)
Definition except_exception {A} (m : M St A) (h : exn -> M St A) : M St A :=
  fun w =>
    match m w with
    | (w', Raise e) => h e w'
    | other => other
    end.

(** [AssimilateProjectExplorer()]: the status tracking starts empty; no call
    is made. *)
Definition new_explorer : M St unit :=
  fun w =>
    ({| server := server w; trace := trace w; stdout := stdout w;
        files := files w; clock := clock w; disk := disk w;
        current_group := None;
        current_construct := None |}, Ok tt).

(** The [__main__] block; the result is the status given to [sys.exit]. *)
Definition main : M St nat :=
  new_explorer ;;
  let PROJECT_NAME := "Project" in
  success <- browse_project api PROJECT_NAME None ;;
  (if negb success
   then print (nl ++ "--- Debug info ---") ;;
        except_exception
          (get_system_info api ;;
           projects <- list_projects api ;;
           match projects with
           | [] => ret tt
           | _ :: _ =>
               let names := map Project.name projects in
               print (nl ++ "Available projects: " ++ repr_names names)
           end)
          (fun e => print ("Debug failed: " ++ str_exn e))
   else ret tt) ;;
  ret (if success then 0 else 1).

End Main.

(** ** Vocabulary of the statements *)

(** The calls made, and the files written, between two worlds of a run. *)
Definition new_events {St} (w w' : World St) : list event :=
  skipn (List.length (trace w)) (trace w').

Definition new_files {St} (w w' : World St) : list (string * string) :=
  skipn (List.length (files w)) (files w').

(** [w'] is [w] after the calls [evs], which left the server in [s'], and
    after writing the files [fs]. *)
Definition effect {St} (w w' : World St) (evs : list event)
    (fs : list (string * string)) (s' : St) : Prop :=
  server w' = s' /\ trace w' = (trace w ++ evs)%list
  /\ files w' = (files w ++ fs)%list /\ clock w' = clock w
  /\ disk w' = disk w.

(** Nothing but printing, and the explorer's own fields, separates [w'] from [w]. *)
Definition quiet {St} (w w' : World St) : Prop :=
  effect w w' [] [] (server w).

(** [w'] is [w] after one call of [c] with outcome [o]. *)
Definition calls_once {St} (w w' : World St) (c : Api.call) (o : outcome)
    : Prop :=
  effect w w' [{| ev_call := c; ev_outcome := o |}] [] (server w').

(** The calls of steps 1 to 3 of the workflow. *)
Definition opening_call (c : Api.call) : bool :=
  match c with
  | Api.get_system_properties | Api.get_projects
  | Api.do_application_project_exit | Api.do_application_project_enter _
  | Api.get_projects_current | Api.get_groups _ => true
  | _ => false
  end.

(** The calls of the steps that follow the selection of the group: fetch the
    construct, collect the shots, thumbnails, render queue, player. *)
Definition later_call (c : Api.call) : bool :=
  match c with
  | Api.get_constructs_current _ | Api.do_application_render_snapshot _
  | Api.get_application_render_queue
  | Api.do_application_player_enter_timeline _
  | Api.do_application_player_enter_timeline_current
  | Api.set_application_player_playmode _ => true
  | _ => false
  end.

Definition is_select_group (c : Api.call) : bool :=
  match c with
  | Api.select_group _ _ => true
  | _ => false
  end.

(** The snapshot request the workflow makes for a shot. *)
Definition snapshot_of (shot : ShotInfo.t) : Api.call :=
  Api.do_application_render_snapshot
    {| ImageSnapshot.uuid := ShotInfo.uuid shot;
       ImageSnapshot.frame := 0;
       ImageSnapshot.proxy := true |}.


(** The file the workflow names for the [i]-th thumbnail. *)
Definition thumb_path (i : nat) (shot_uuid : string) : string :=
  "/tmp/project_thumb_" ++ str_nat i ++ "_" ++ slice_to 8 shot_uuid ++ ".jpg".

(** The file [generate_thumbnail] names when it is given none. *)
Definition default_path (shot_uuid : string) (now : datetime) : string :=
  "/tmp/thumbnail_" ++ slice_to 8 shot_uuid ++ "_" ++ strftime now ++ ".jpg".

(** The playback configuration the workflow pushes. *)
Definition review_playmode : PlaymodeData.t :=
  {| PlaymodeData.mode := "PLAY_FRW";
     PlaymodeData.loop := "LOOP";
     PlaymodeData.audio := "ON";
     PlaymodeData.speed := 1;
     PlaymodeData.range := false |}.

(** A call that kept to the client's contract: it returned, or it failed
    with an [ApiException]. *)
Definition returned_or_api_error (o : outcome) : Prop :=
  match o with
  | Returned | Failed (ApiError _) => True
  | Failed _ => False
  end.

Definition ev (c : Api.call) (o : outcome) : event :=
  {| ev_call := c; ev_outcome := o |}.

(** The calls that follow the thumbnails in [review], with its result: the
    render queue, the player, the playback mode; none when there are no shots
    or the thumbnail loop raised. *)
Inductive review_tail : list event -> result bool -> Prop :=
| tail_none r :
    r <> Ok true -> review_tail [] r
| tail_queue e :
    review_tail [ev Api.get_application_render_queue (Failed e)] (Raise e)
| tail_player o e :
    review_tail
      [ev Api.get_application_render_queue o;
       ev Api.do_application_player_enter_timeline_current (Failed e)]
      (Raise e)
| tail_playmode o e :
    review_tail
      [ev Api.get_application_render_queue o;
       ev Api.do_application_player_enter_timeline_current Returned;
       ev (Api.set_application_player_playmode review_playmode) (Failed e)]
      (Raise e)
| tail_done o :
    review_tail
      [ev Api.get_application_render_queue o;
       ev Api.do_application_player_enter_timeline_current Returned;
       ev (Api.set_application_player_playmode review_playmode) Returned]
      (Ok true).

(** The group [choose_target] looks for: the first one with the wanted name
    when a non-empty name is given, the last one otherwise. *)
Definition chosen (target_group_name : option string) (groups : list Group.t)
    : option Group.t :=
  match target_group_name with
  | Some wanted =>
      if truthy wanted
      then find (fun g => Group.name g =? wanted) groups
      else match rev groups with g :: _ => Some g | [] => None end
  | None => match rev groups with g :: _ => Some g | [] => None end
  end.

Definition is_snapshot (c : Api.call) : bool :=
  match c with
  | Api.do_application_render_snapshot _ => true
  | _ => false
  end.

(** The thumbnail requests among the calls of a run, in order. *)
Definition thumbnail_requests (evs : list event) : list Api.call :=
  map ev_call (filter (fun e => is_snapshot (ev_call e)) evs).

(** What a run does once a group is chosen: it selects the group, which
    ends the run when it fails; the calls that follow are those of the later
    steps; the run succeeds exactly when the playback mode was pushed, and
    then every step before has returned. *)
Definition selection_run (target_group : Group.t) (evs : list event)
    (r : result bool) : Prop :=
  exists o later,
    evs = ev (Api.select_group (Group.uuid target_group) "ALL") o :: later
    /\ Forall (fun e => later_call (ev_call e) = true) later
    /\ (forall e, o = Failed e -> later = [] /\ r = Raise e)
    /\ (forall body,
          In (ev (Api.set_application_player_playmode body) Returned) later ->
          r = Ok true)
    /\ (r = Ok true ->
        o = Returned
        /\ exists snaps oq,
             Forall (fun e => is_snapshot (ev_call e) = true) snaps
             /\ later
                = ([ev (Api.get_constructs_current "ALL") Returned;
                    ev (Api.get_constructs_current "ALL") Returned]
                   ++ snaps
                   ++ [ev Api.get_application_render_queue oq;
                       ev Api.do_application_player_enter_timeline_current
                          Returned;
                       ev (Api.set_application_player_playmode review_playmode)
                          Returned])%list).

(** The files of a run are thumbnails of shots a snapshot was requested
    for, named after the index of the request among the thumbnail requests
    of the run, one of the first five, and after the shot. *)
Definition thumbnails_named (evs : list event) (fs : list (string * string))
    : Prop :=
  forall path data,
    In (path, data) fs ->
    exists k body o,
      k < 5 /\ In (ev (Api.do_application_render_snapshot body) o) evs
      /\ nth_error (thumbnail_requests evs) k
         = Some (Api.do_application_render_snapshot body)
      /\ path = thumb_path k (ImageSnapshot.uuid body).

(** The five calls of steps 1 to 3 when they return groups. *)
Definition opening_calls (project_name : string) (exit_outcome : outcome)
    : list event :=
  [ev Api.get_system_properties Returned;
   ev Api.do_application_project_exit exit_outcome;
   ev (Api.do_application_project_enter project_name) Returned;
   ev Api.get_projects_current Returned;
   ev (Api.get_groups "ALL") Returned].

(** [select_group] is called for the group [g] and for no other. *)
Definition selects (evs : list event) (g : Group.t) : Prop :=
  (exists o, In (ev (Api.select_group (Group.uuid g) "ALL") o) evs)
  /\ (forall u l o, In (ev (Api.select_group u l) o) evs -> u = Group.uuid g).

Definition selects_none (evs : list event) : Prop :=
  forall u l o, ~ In (ev (Api.select_group u l) o) evs.



(** The calls of steps 1 and 2 whose failure the workflow does not
    survive: the system check, entering the project, fetching it. *)
Definition required_opening (c : Api.call) : bool :=
  match c with
  | Api.get_system_properties | Api.do_application_project_enter _
  | Api.get_projects_current => true
  | _ => false
  end.

(** The calls that come before the thumbnails. *)
Definition before_thumbnails (c : Api.call) : bool :=
  match c with
  | Api.get_system_properties | Api.get_projects
  | Api.do_application_project_exit
  | Api.do_application_project_enter _ | Api.get_projects_current
  | Api.get_groups _ | Api.select_group _ _ | Api.get_constructs_current _ =>
      true
  | _ => false
  end.

(** The calls and files of any run of the workflow body, with its result:
    calls that come before the thumbnails, then at most five thumbnail
    requests with at most one file each, then the calls of the end of
    [review]. *)
Definition workflow_run (evs : list event) (fs : list (string * string))
    (r : result bool) : Prop :=
  exists before snaps tail,
    evs = (before ++ snaps ++ tail)%list
    /\ Forall (fun e => before_thumbnails (ev_call e) = true) before
    /\ Forall (fun e => is_snapshot (ev_call e) = true) snaps
    /\ List.length snaps <= 5
    /\ List.length fs <= List.length snaps
    /\ review_tail tail r.

(** The debug section of the command line: the system check, then the
    list of projects when the check returned. *)
Inductive debug_calls : list event -> Prop :=
| debug_system o :
    o <> Returned -> debug_calls [ev Api.get_system_properties o]
| debug_projects o :
    debug_calls [ev Api.get_system_properties Returned; ev Api.get_projects o].

(** An error the handlers can print: it has no body, an empty one, or one
    that holds a JSON document. *)
Definition loggable (e : ApiException.t) : Prop :=
  match ApiException.body e with
  | Some (Unstructured _) => False
  | _ => True
  end.

(** A reply within the client's contract: a response, or an [ApiException]
    with an optional structured body. *)
Definition keeps_contract {A} (r : result A) : Prop :=
  match r with
  | Ok _ => True
  | Raise (ApiError e) => loggable e
  | Raise _ => False
  end.

Fixpoint all_some {A} (l : list (option A)) : option (list A) :=
  match l with
  | [] => Some []
  | None :: _ => None
  | Some x :: l' =>
      match all_some l' with
      | Some xs => Some (x :: xs)
      | None => None
      end
  end.

(** The shots of a construct, slot by slot, when its slots are a list and
    every slot holds a list of shots (read the way [get_all_shots] reads
    them). *)
Definition slot_lists (construct : option Construct.t)
    : option (list (list Shot.t)) :=
  match safe_get_attr construct Construct.slots [] with
  | Some slots =>
      all_some (map (fun slot => safe_get_attr (Some slot) Slot.shots []) slots)
  | None => None
  end.

(** The position a summary is tagged with. *)
Definition position (info : ShotInfo.t) : nat * nat :=
  (ShotInfo.slot_idx info, ShotInfo.version_idx info).

(** The summary of a shot found at a position. *)
Definition summary (slot_idx version_idx : nat) (shot : Shot.t) : ShotInfo.t :=
  {| ShotInfo.uuid := Shot.uuid shot;
     ShotInfo.name := Shot.name shot;
     ShotInfo.slot_idx := slot_idx;
     ShotInfo.version_idx := version_idx;
     ShotInfo.file := safe_get_attr (Some shot) Shot.file "N/A";
     ShotInfo.length := safe_get_attr (Some shot) Shot.length 0%Z;
     ShotInfo.timecode := safe_get_attr (Some shot) Shot.timecode "00:00:00:00" |}.

(** The summaries of a slot's shots, versions counted from [version_idx]. *)
Fixpoint summaries_of_slot (slot_idx version_idx : nat) (shots : list Shot.t)
    : list ShotInfo.t :=
  match shots with
  | [] => []
  | shot :: rest =>
      summary slot_idx version_idx shot
      :: summaries_of_slot slot_idx (S version_idx) rest
  end.

(** The summaries of all slots in order, slots counted from [slot_idx]. *)
Fixpoint summaries (slot_idx : nat) (slots : list (list Shot.t))
    : list ShotInfo.t :=
  match slots with
  | [] => []
  | shots :: rest =>
      (summaries_of_slot slot_idx 0 shots ++ summaries (S slot_idx) rest)%list
  end.

(** ** A scripted server for the examples *)

Module Demo.

Definition system : SystemProperties.t :=
  {| SystemProperties.system_name := "SCRATCH";
     SystemProperties.version := "9.7";
     SystemProperties.build := "1100" |}.

Definition project : Project.t :=
  {| Project.name := "Project"; Project.modified := "2024-01-01" |}.

Definition group_a : Group.t :=
  {| Group.uuid := "group-a"; Group.name := "A"; Group.active := true;
     Group.constructs := Some ["c1"] |}.

Definition group_b : Group.t :=
  {| Group.uuid := "group-b"; Group.name := "B"; Group.active := false;
     Group.constructs := None |}.

Definition shot (uuid name : string) : Shot.t :=
  {| Shot.uuid := uuid; Shot.name := name; Shot.file := Missing;
     Shot.length := Val 24%Z; Shot.timecode := PyNone |}.

Definition slot (shots : list Shot.t) : Slot.t :=
  {| Slot.shots := Val shots |}.

Definition timeline (slots : list Slot.t) : Construct.t :=
  {| Construct.name := Val "Reel 1";
     Construct.resolution :=
       Val {| Resolution.w := Val 1920%Z; Resolution.h := Val 1080%Z |};
     Construct.fps := Val "24.0";
     Construct.slots := Val slots |}.

(** Three shots in two slots. *)
Definition reel : Construct.t :=
  timeline [slot [shot "shot-0001-aaaa" "s1"; shot "shot-0002-bbbb" "s2"];
            slot [shot "shot-0003-cccc" "s3"]].

(** Twelve shots in one slot. *)
Definition long_reel : Construct.t :=
  timeline [slot (map (fun n => shot ("shot-" ++ str_nat n ++ "-long") "s")
                      (seq 0 12))].

Definition jpeg : HTTPResponse.t :=
  {| HTTPResponse.content_type := Some "image/jpeg";
     HTTPResponse.data := Some "JFIF" |}.

Definition html : HTTPResponse.t :=
  {| HTTPResponse.content_type := Some "text/html";
     HTTPResponse.data := Some "<html>busy</html>" |}.

Definition error (status : Z) (reason : string) (body : option Body)
    : ApiException.t :=
  {| ApiException.status := status; ApiException.reason := reason;
     ApiException.body := body |}.

(** What the scripted server answers; the other endpoints succeed. *)
Record Script :=
  { on_exit : result unit;
    on_enter : result unit;
    on_groups : result (option (list Group.t));
    on_select : result Group.t;
    on_construct : result (option Construct.t);
    on_snapshot : ImageSnapshot.t -> result HTTPResponse.t;
    on_playmode : result unit }.

Definition client (sc : Script) : Api.Client unit :=
  {| Api.system_properties := fun s => (s, Ok system);
     Api.projects := fun s => (s, Ok (Some [project]));
     Api.project_exit := fun s => (s, on_exit sc);
     Api.project_enter := fun _ s => (s, on_enter sc);
     Api.projects_current := fun s => (s, Ok project);
     Api.groups := fun _ s => (s, on_groups sc);
     Api.group_select := fun _ _ s => (s, on_select sc);
     Api.constructs_current := fun _ s => (s, on_construct sc);
     Api.render_snapshot := fun body s => (s, on_snapshot sc body);
     Api.render_queue := fun s => (s, Ok None);
     Api.player_enter_timeline := fun _ s => (s, Ok tt);
     Api.player_enter_timeline_current := fun s => (s, Ok tt);
     Api.player_playmode := fun _ s => (s, on_playmode sc) |}.

(** A run in which every call succeeds. *)
Definition usual (construct : Construct.t) : Script :=
  {| on_exit := Ok tt;
     on_enter := Ok tt;
     on_groups := Ok (Some [group_a; group_b]);
     on_select := Ok group_b;
     on_construct := Ok (Some construct);
     on_snapshot := fun _ => Ok jpeg;
     on_playmode := Ok tt |}.

(** The snapshot endpoint answers with an HTML page. *)
Definition busy : Script :=
  {| on_exit := Ok tt;
     on_enter := Ok tt;
     on_groups := Ok (Some [group_a; group_b]);
     on_select := Ok group_b;
     on_construct := Ok (Some reel);
     on_snapshot := fun _ => Ok html;
     on_playmode := Ok tt |}.

(** The group listing fails with an error that carries no body. *)
Definition no_listing : Script :=
  {| on_exit := Ok tt;
     on_enter := Ok tt;
     on_groups := Raise (ApiError (error 500 "Internal Server Error" None));
     on_select := Ok group_b;
     on_construct := Ok (Some reel);
     on_snapshot := fun _ => Ok jpeg;
     on_playmode := Ok tt |}.

(** The selection of the group is refused. *)
Definition refused : Script :=
  {| on_exit := Ok tt;
     on_enter := Ok tt;
     on_groups := Ok (Some [group_a; group_b]);
     on_select := Raise (ApiError (error 404 "Not Found" None));
     on_construct := Ok (Some reel);
     on_snapshot := fun _ => Ok jpeg;
     on_playmode := Ok tt |}.

(** No project is open when the explorer starts: the exit fails. *)
Definition already_out : Script :=
  {| on_exit := Raise (ApiError (error 400 "Bad Request" None));
     on_enter := Ok tt;
     on_groups := Ok (Some [group_a; group_b]);
     on_select := Ok group_b;
     on_construct := Ok (Some reel);
     on_snapshot := fun _ => Ok jpeg;
     on_playmode := Ok tt |}.

(** A timeline one of whose slots has [None] for shots. *)
Definition broken_reel : Construct.t :=
  timeline [slot [shot "shot-0001-aaaa" "s1"]; {| Slot.shots := PyNone |}].

(** The fetch of the construct fails. *)
Definition no_construct : Script :=
  {| on_exit := Ok tt;
     on_enter := Ok tt;
     on_groups := Ok (Some [group_a; group_b]);
     on_select := Ok group_b;
     on_construct := Raise (ApiError (error 500 "Internal Server Error" None));
     on_snapshot := fun _ => Ok jpeg;
     on_playmode := Ok tt |}.

(** The project has no group. *)
Definition no_groups : Script :=
  {| on_exit := Ok tt;
     on_enter := Ok tt;
     on_groups := Ok (Some []);
     on_select := Ok group_b;
     on_construct := Ok (Some reel);
     on_snapshot := fun _ => Ok jpeg;
     on_playmode := Ok tt |}.

(** The project cannot be entered. *)
Definition locked : Script :=
  {| on_exit := Ok tt;
     on_enter := Raise (ApiError (error 403 "Forbidden" None));
     on_groups := Ok (Some [group_a; group_b]);
     on_select := Ok group_b;
     on_construct := Ok (Some reel);
     on_snapshot := fun _ => Ok jpeg;
     on_playmode := Ok tt |}.

(** The group listing fails with an error that carries a JSON document. *)
Definition explained : Script :=
  {| on_exit := Ok tt;
     on_enter := Ok tt;
     on_groups :=
       Raise (ApiError
                (error 500 "Internal Server Error"
                   (Some (Structured "{}" "{}"))));
     on_select := Ok group_b;
     on_construct := Ok (Some reel);
     on_snapshot := fun _ => Ok jpeg;
     on_playmode := Ok tt |}.

(** No construct is current: the client answers [None]. *)
Definition vacant : Script :=
  {| on_exit := Ok tt;
     on_enter := Ok tt;
     on_groups := Ok (Some [group_a; group_b]);
     on_select := Ok group_b;
     on_construct := Ok None;
     on_snapshot := fun _ => Ok jpeg;
     on_playmode := Ok tt |}.

(** The entry into the project is refused with an HTML page for body. *)
Definition garbled : Script :=
  {| on_exit := Ok tt;
     on_enter :=
       Raise (ApiError
                (error 502 "Bad Gateway"
                   (Some (Unstructured "<html>Bad Gateway</html>"))));
     on_groups := Ok (Some [group_a; group_b]);
     on_select := Ok group_b;
     on_construct := Ok (Some reel);
     on_snapshot := fun _ => Ok jpeg;
     on_playmode := Ok tt |}.


(** The current project cannot be fetched: the gateway answers with an HTML
    page. *)
Definition lost : Api.Client unit :=
  {| Api.system_properties := Api.system_properties (client (usual reel));
     Api.projects := Api.projects (client (usual reel));
     Api.project_exit := Api.project_exit (client (usual reel));
     Api.project_enter := Api.project_enter (client (usual reel));
     Api.projects_current := fun s =>
       (s, Raise (ApiError
                    (error 502 "Bad Gateway"
                       (Some (Unstructured "<html>Bad Gateway</html>")))));
     Api.groups := Api.groups (client (usual reel));
     Api.group_select := Api.group_select (client (usual reel));
     Api.constructs_current := Api.constructs_current (client (usual reel));
     Api.render_snapshot := Api.render_snapshot (client (usual reel));
     Api.render_queue := Api.render_queue (client (usual reel));
     Api.player_enter_timeline :=
       Api.player_enter_timeline (client (usual reel));
     Api.player_enter_timeline_current :=
       Api.player_enter_timeline_current (client (usual reel));
     Api.player_playmode := Api.player_playmode (client (usual reel)) |}.

(** A server on which the player cannot be entered. *)
Definition stuck_player : Api.Client unit :=
  {| Api.system_properties := Api.system_properties (client (usual reel));
     Api.projects := Api.projects (client (usual reel));
     Api.project_exit := Api.project_exit (client (usual reel));
     Api.project_enter := Api.project_enter (client (usual reel));
     Api.projects_current := Api.projects_current (client (usual reel));
     Api.groups := Api.groups (client (usual reel));
     Api.group_select := Api.group_select (client (usual reel));
     Api.constructs_current := Api.constructs_current (client (usual reel));
     Api.render_snapshot := Api.render_snapshot (client (usual reel));
     Api.render_queue := Api.render_queue (client (usual reel));
     Api.player_enter_timeline := fun _ s =>
       (s, Raise (ApiError (error 409 "Conflict" None)));
     Api.player_enter_timeline_current := fun s =>
       (s, Raise (ApiError (error 409 "Conflict" None)));
     Api.player_playmode := Api.player_playmode (client (usual reel)) |}.

Definition start : World unit :=
  {| server := tt; trace := []; stdout := []; files := [];
     clock := {| year := 2024; month := 3; day := 9;
                 hour := 14; minute := 5; second := 7 |};
     disk := fun _ => true;
     current_group := None; current_construct := None |}.


End Demo.

(** ** Properties *)

(** Unfold the monad's operations and project the worlds they build. *)
Ltac msimpl :=
  cbv beta iota delta
    [bind ret raise print invoke write_file set_current_group
     set_current_construct datetime_now except_api except_api_any sequence
     error_dict];
  cbn [server trace stdout files clock disk current_group current_construct
       outcome_of fst snd].

Ltac msimpl_in H :=
  cbv beta iota delta
    [bind ret raise print invoke write_file set_current_group
     set_current_construct datetime_now except_api except_api_any sequence
     error_dict]
    in H;
  cbn [server trace stdout files clock disk current_group current_construct
       outcome_of fst snd] in H.

Section ShotCollection.

Variable St : Type.
Variable api : Api.Client St.

Lemma effect_refl (w : World St) : quiet w w.
Proof.
  unfold quiet, effect. rewrite !app_nil_r. auto.
Qed.

Lemma effect_trans (w w1 w2 : World St) evs1 evs2 fs1 fs2 s1 s2 :
  effect w w1 evs1 fs1 s1 ->
  effect w1 w2 evs2 fs2 s2 ->
  effect w w2 (evs1 ++ evs2) (fs1 ++ fs2) s2.
Proof.
  unfold effect. intros (_ & T1 & F1 & C1 & D1) (S2 & T2 & F2 & C2 & D2).
  rewrite T2, T1, F2, F1, C2, C1, D2, D1, !app_assoc. auto.
Qed.

Lemma quiet_trans (w w1 w2 : World St) :
  quiet w w1 -> quiet w1 w2 -> quiet w w2.
Proof.
  unfold quiet, effect. rewrite !app_nil_r.
  intros (S1 & T1 & F1 & C1 & D1) (S2 & T2 & F2 & C2 & D2).
  repeat split; congruence.
Qed.

(** The inner loop appends the summaries of the slot's shots. *)
Lemma collect_versions_run slot_idx slot_shots :
  forall version_idx all_shots (w : World St),
  exists w',
    collect_versions slot_idx version_idx slot_shots all_shots w
    = (w', Ok (all_shots ++ summaries_of_slot slot_idx version_idx slot_shots)%list)
    /\ quiet w w'.
Proof.
  induction slot_shots as [|shot rest IH]; intros version_idx all_shots w.
  - exists w. cbn. rewrite app_nil_r. split; [reflexivity | apply effect_refl].
  - cbn [collect_versions summaries_of_slot bind print].
    match goal with |- context [collect_versions _ _ _ _ ?w1] =>
      destruct (IH (S version_idx)
                   (all_shots ++ [summary slot_idx version_idx shot])%list w1)
        as (w' & Hrun & Hq)
    end.
    exists w'. split.
    + unfold summary in Hrun. rewrite Hrun, <- app_assoc. reflexivity.
    + unfold quiet, effect in *. cbn in Hq. exact Hq.
Qed.

(** The outer loop appends the summaries of all slots. *)
Lemma collect_slots_run slots :
  forall lists slot_idx all_shots (w : World St),
  all_some (map (fun slot => safe_get_attr (Some slot) Slot.shots []) slots)
  = Some lists ->
  exists w',
    collect_slots slot_idx slots all_shots w
    = (w', Ok (all_shots ++ summaries slot_idx lists)%list)
    /\ quiet w w'.
Proof.
  induction slots as [|slot rest IH]; intros lists slot_idx all_shots w Hall.
  - injection Hall as <-. exists w. cbn. rewrite app_nil_r.
    split; [reflexivity | apply effect_refl].
  - cbn [map all_some] in Hall.
    destruct (safe_get_attr (Some slot) Slot.shots []) as [shots|] eqn:Hslot;
      [|discriminate].
    destruct (all_some _) as [lists'|] eqn:Hrest; [|discriminate].
    injection Hall as <-.
    cbn [collect_slots]. rewrite Hslot. msimpl.
    destruct (collect_versions_run slot_idx shots 0 all_shots w)
      as (w1 & Hrun1 & Hq1).
    rewrite Hrun1.
    destruct (IH lists' (S slot_idx)
                 (all_shots ++ summaries_of_slot slot_idx 0 shots)%list w1
                 eq_refl)
      as (w2 & Hrun2 & Hq2).
    exists w2. split.
    + rewrite Hrun2. cbn [summaries]. rewrite app_assoc. reflexivity.
    + exact (quiet_trans Hq1 Hq2).
Qed.

Lemma length_summaries_of_slot slot_idx shots :
  forall version_idx,
  List.length (summaries_of_slot slot_idx version_idx shots) = List.length shots.
Proof.
  induction shots as [|shot rest IH]; intros version_idx; cbn; auto.
Qed.

Lemma length_summaries lists :
  forall slot_idx,
  List.length (summaries slot_idx lists) = list_sum (map (@List.length _) lists).
Proof.
  induction lists as [|shots rest IH]; intros slot_idx; cbn; auto.
  rewrite length_app, length_summaries_of_slot, IH. reflexivity.
Qed.

(** Where a summary of a slot comes from. *)
Lemma in_summaries_of_slot slot_idx shots :
  forall version_idx info,
  In info (summaries_of_slot slot_idx version_idx shots) <->
  exists j shot,
    nth_error shots j = Some shot
    /\ info = summary slot_idx (version_idx + j) shot.
Proof.
  induction shots as [|shot rest IH]; intros version_idx info; cbn.
  - split; [tauto | intros (j & shot & H & _); destruct j; discriminate].
  - rewrite IH. split.
    + intros [<- | (j & shot' & Hj & ->)].
      * exists 0, shot. rewrite Nat.add_0_r. auto.
      * exists (S j), shot'. rewrite Nat.add_succ_r. auto.
    + intros (j & shot' & Hj & ->). destruct j as [|j]; cbn in Hj.
      * injection Hj as <-. rewrite Nat.add_0_r. auto.
      * right. exists j, shot'. rewrite Nat.add_succ_r. auto.
Qed.

Lemma in_summaries lists :
  forall slot_idx info,
  In info (summaries slot_idx lists) <->
  exists i shots j shot,
    nth_error lists i = Some shots /\ nth_error shots j = Some shot
    /\ info = summary (slot_idx + i) j shot.
Proof.
  induction lists as [|shots rest IH]; intros slot_idx info; cbn.
  - split; [tauto | intros (i & ? & ? & ? & H & _); destruct i; discriminate].
  - rewrite in_app_iff, IH, in_summaries_of_slot. split.
    + intros [(j & shot & Hj & ->) | (i & shots' & j & shot & Hi & Hj & ->)].
      * exists 0, shots, j, shot. rewrite Nat.add_0_r. auto.
      * exists (S i), shots', j, shot. rewrite Nat.add_succ_r. auto.
    + intros (i & shots' & j & shot & Hi & Hj & ->).
      destruct i as [|i]; cbn in Hi.
      * injection Hi as <-. left. exists j, shot. rewrite Nat.add_0_r. auto.
      * right. exists i, shots', j, shot. rewrite Nat.add_succ_r. auto.
Qed.

Lemma positions_of_slot slot_idx shots :
  forall version_idx,
  map position (summaries_of_slot slot_idx version_idx shots)
  = map (pair slot_idx) (seq version_idx (List.length shots)).
Proof.
  induction shots as [|shot rest IH]; intros version_idx; cbn; auto.
  rewrite IH. reflexivity.
Qed.

Lemma slot_idx_summaries lists :
  forall slot_idx p,
  In p (map position (summaries slot_idx lists)) -> slot_idx <= fst p.
Proof.
  intros slot_idx p Hin. apply in_map_iff in Hin as (info & <- & Hin).
  apply in_summaries in Hin as (i & ? & ? & ? & _ & _ & ->). cbn. lia.
Qed.

(** No two summaries carry the same position. *)
Lemma NoDup_positions lists :
  forall slot_idx, NoDup (map position (summaries slot_idx lists)).
Proof.
  induction lists as [|shots rest IH]; intros slot_idx; cbn.
  - constructor.
  - rewrite map_app, positions_of_slot.
    apply NoDup_app; [| apply IH |].
    + apply Injective_map_NoDup; [|apply seq_NoDup].
      intros a b Hab. now injection Hab.
    + intros p Hin1 Hin2.
      apply in_map_iff in Hin1 as (j & <- & _).
      apply slot_idx_summaries in Hin2. cbn in Hin2. lia.
Qed.

(** [get_all_shots] on a construct whose slots hold lists of shots. *)
Lemma get_all_shots_run (w : World St) s' construct lists :
  Api.constructs_current api "ALL" (server w) = (s', Ok construct) ->
  slot_lists construct = Some lists ->
  exists w',
    get_all_shots api w = (w', Ok (summaries 0 lists))
    /\ effect w w'
         [{| ev_call := Api.get_constructs_current "ALL";
             ev_outcome := Returned |}] [] s'.
Proof.
  intros Hcall Hlists. unfold slot_lists in Hlists.
  destruct (safe_get_attr construct Construct.slots []) as [slots|] eqn:Hslots;
    [|discriminate].
  unfold get_all_shots. msimpl. rewrite Hcall. msimpl. rewrite Hslots.
  match goal with |- context [collect_slots 0 slots [] ?w1] =>
    destruct (collect_slots_run slots 0 [] w1 Hlists) as (w2 & Hrun & Hq)
  end.
  rewrite Hrun. cbn [app].
  eexists. split; [reflexivity|].
  destruct Hq as (HS & HT & HF & HC & HD). cbn in HS, HT, HF, HC, HD.
  rewrite app_nil_r in HT, HF.
  unfold effect. cbn. rewrite app_nil_r. auto.
Qed.

(** C1. For a construct whose slots each hold a list of shots,
    [get_all_shots] returns the shots of all slots in order: as many
    entries as the slots hold shots, no two entries with the same
    (slot index, version index) pair, every entry the summary of the shot
    found at its pair, and every shot of the construct present. *)
Theorem get_all_shots_positions (w : World St) s' construct lists :
  Api.constructs_current api "ALL" (server w) = (s', Ok construct) ->
  slot_lists construct = Some lists ->
  exists w' all_shots,
    get_all_shots api w = (w', Ok all_shots)
    /\ all_shots = summaries 0 lists
    /\ List.length all_shots = list_sum (map (@List.length _) lists)
    /\ NoDup (map position all_shots)
    /\ (forall info, In info all_shots ->
          exists shots shot,
            nth_error lists (ShotInfo.slot_idx info) = Some shots
            /\ nth_error shots (ShotInfo.version_idx info) = Some shot
            /\ info = summary (ShotInfo.slot_idx info)
                              (ShotInfo.version_idx info) shot)
    /\ (forall i shots j shot,
          nth_error lists i = Some shots ->
          nth_error shots j = Some shot ->
          In (summary i j shot) all_shots).
Proof.
  intros Hcall Hlists.
  destruct (get_all_shots_run w Hcall Hlists) as (w' & Hrun & _).
  exists w', (summaries 0 lists).
  split; [exact Hrun|]. split; [reflexivity|].
  split; [apply length_summaries|]. split; [apply NoDup_positions|]. split.
  - intros info Hin.
    apply in_summaries in Hin as (i & shots & j & shot & Hi & Hj & ->).
    exists shots, shot. cbn. auto.
  - intros i shots j shot Hi Hj. apply in_summaries.
    exists i, shots, j, shot. auto.
Qed.

End ShotCollection.

Lemma get_all_shots_positions_witness :
  exists w' all_shots,
    get_all_shots (Demo.client (Demo.usual Demo.reel)) Demo.start
    = (w', Ok all_shots)
    /\ map position all_shots = [(0, 0); (0, 1); (1, 0)].
Proof.
  destruct (get_all_shots_positions
              (Demo.client (Demo.usual Demo.reel)) Demo.start
              (s' := tt) (construct := Some Demo.reel)
              (lists := [[Demo.shot "shot-0001-aaaa" "s1";
                          Demo.shot "shot-0002-bbbb" "s2"];
                         [Demo.shot "shot-0003-cccc" "s3"]])
              eq_refl eq_refl)
    as (w' & all_shots & Hrun & Hall & _).
  exists w', all_shots. split; [exact Hrun|]. rewrite Hall. reflexivity.
Defined.

(** ** Running the operations *)

(** Case analysis on the innermost scrutinee of the goal. *)
Ltac split_match :=
  match goal with
  | |- context [match ?x with _ => _ end] =>
      lazymatch x with
      | context [match _ with _ => _ end] => fail
      | _ => destruct x eqn:?
      end
  end.

(** Run a straight-line operation along every reply of the client. *)
Ltac run_op :=
  msimpl; repeat (split_match; msimpl);
  let H := fresh "H" in intros H; injection H as <- <-.

Ltac solve_effect :=
  unfold quiet, calls_once, effect;
  cbn [server trace stdout files clock disk current_group current_construct];
  rewrite <- ?app_assoc; cbn [app];
  repeat split;
  first [reflexivity | symmetry; apply app_nil_r | rewrite ?app_nil_r; auto].

Section Operations.

Variable St : Type.
Variable api : Api.Client St.

Lemma bind_inv {A B} (m : M St A) (k : A -> M St B) w w' r :
  bind m k w = (w', r) ->
  (exists w1 a, m w = (w1, Ok a) /\ k a w1 = (w', r))
  \/ (exists e, m w = (w', Raise e) /\ r = Raise e).
Proof.
  unfold bind. destruct (m w) as [w1 [a|e]]; intros H.
  - left. eauto.
  - right. injection H as <- <-. eauto.
Qed.

(** A loop whose body only prints only prints. *)
Lemma for_each_quiet {A} (body : A -> M St unit) (xs : list A) :
  (forall x w, exists w', body x w = (w', Ok tt) /\ quiet w w') ->
  forall w, exists w', for_each xs body w = (w', Ok tt) /\ quiet w w'.
Proof.
  intros Hbody. induction xs as [|x xs IH]; intros w.
  - exists w. split; [reflexivity | apply effect_refl].
  - cbn [for_each]. unfold bind.
    destruct (Hbody x w) as (w1 & -> & Hq1).
    destruct (IH w1) as (w2 & -> & Hq2).
    exists w2. split; [reflexivity | exact (quiet_trans Hq1 Hq2)].
Qed.

Lemma get_groups_inv detailed (w w' : World St) r :
  get_groups api detailed w = (w', r) ->
  exists o,
    calls_once w w' (Api.get_groups (if detailed then "ALL" else "")) o
    /\ (forall g gs, r = Ok (g :: gs) -> o = Returned).
Proof.
  unfold get_groups, calls_once. msimpl.
  destruct (Api.groups api _ (server w)) as [s1 [[groups|]|e]] eqn:Hcall;
    msimpl.
  - match goal with |- context [for_each groups ?body ?w1] =>
      destruct (@for_each_quiet _ body groups) with (w := w1)
        as (w2 & Hrun & HS & HT & HF & HC & HD)
    end.
    { intros x w0. msimpl. repeat split_match;
        (eexists; split; [reflexivity | solve_effect]). }
    rewrite Hrun. cbn in HS, HT, HF, HC, HD. rewrite app_nil_r in HT, HF.
    intros H. injection H as <- <-. exists Returned.
    split; [|auto]. unfold effect. rewrite HT, HF, HC, HD. solve_effect.
  - intros H. injection H as <- <-. eexists. split; [solve_effect|].
    discriminate.
  - destruct e as [e| | | | | |]; msimpl;
      try (intros H; injection H as <- <-; eexists;
           split; [solve_effect | discriminate]).
    repeat (split_match; msimpl);
      intros H; injection H as <- <-; eexists;
      (split; [solve_effect | discriminate]).
Qed.

Lemma get_system_info_inv (w w' : World St) r :
  get_system_info api w = (w', r) ->
  exists o,
    calls_once w w' Api.get_system_properties o
    /\ (forall a, r = Ok a -> o = Returned).
Proof.
  unfold get_system_info, calls_once. run_op;
    (eexists; split;
     [solve_effect | intros; first [reflexivity | discriminate]]).
Qed.

Lemma enter_project_inv project_name (w w' : World St) r :
  enter_project api project_name w = (w', r) ->
  exists evs,
    effect w w' evs [] (server w')
    /\ Forall (fun ev => opening_call (ev_call ev) = true) evs
    /\ (forall a, r = Ok a ->
          exists o,
            evs = [{| ev_call := Api.do_application_project_exit;
                      ev_outcome := o |};
                   {| ev_call := Api.do_application_project_enter project_name;
                      ev_outcome := Returned |};
                   {| ev_call := Api.get_projects_current;
                      ev_outcome := Returned |}]).
Proof.
  unfold enter_project. run_op;
    (eexists; split; [solve_effect|]; split;
     [repeat constructor
     | intros; first [discriminate | eexists; reflexivity]]).
Qed.

Lemma select_group_inv group_uuid (w w' : World St) r :
  select_group api group_uuid w = (w', r) ->
  exists o,
    calls_once w w' (Api.select_group group_uuid "ALL") o
    /\ ((o = Returned /\ exists g, r = Ok g)
        \/ (exists e, o = Failed e /\ r = Raise e)).
Proof.
  unfold select_group, calls_once. run_op;
    (eexists; split; [solve_effect|];
     first [left; split; [reflexivity | eexists; reflexivity]
           | right; eexists; split; reflexivity]).
Qed.

Lemma get_current_construct_inv (w w' : World St) r :
  get_current_construct api w = (w', r) ->
  exists o,
    calls_once w w' (Api.get_constructs_current "ALL") o
    /\ (forall a, r = Ok a -> o = Returned).
Proof.
  unfold get_current_construct, calls_once. run_op;
    (eexists; split;
     [solve_effect | intros; first [reflexivity | discriminate]]).
Qed.

(** Whatever the slots hold, collecting them only prints. *)
Lemma collect_slots_quiet slots :
  forall slot_idx all_shots (w : World St),
  exists w' r,
    collect_slots slot_idx slots all_shots w = (w', r) /\ quiet w w'.
Proof.
  induction slots as [|slot rest IH]; intros slot_idx all_shots w.
  - exists w. eexists. split; [reflexivity | apply effect_refl].
  - cbn [collect_slots].
    destruct (safe_get_attr (Some slot) Slot.shots []) as [shots|]; msimpl.
    + destruct (collect_versions_run slot_idx shots 0 all_shots w)
        as (w1 & -> & Hq1).
      destruct (IH (S slot_idx)
                   (all_shots ++ summaries_of_slot slot_idx 0 shots)%list w1)
        as (w2 & r & -> & Hq2).
      exists w2, r. split; [reflexivity | exact (quiet_trans Hq1 Hq2)].
    + exists w. eexists. split; [reflexivity | apply effect_refl].
Qed.

Lemma get_all_shots_inv (w w' : World St) r :
  get_all_shots api w = (w', r) ->
  exists o,
    calls_once w w' (Api.get_constructs_current "ALL") o
    /\ (forall shot shots, r = Ok (shot :: shots) -> o = Returned).
Proof.
  unfold get_all_shots. msimpl.
  destruct (Api.constructs_current api "ALL" (server w))
    as [s1 [construct|e]] eqn:Hcall; msimpl.
  - destruct (safe_get_attr construct Construct.slots []) as [slots|]; msimpl.
    + match goal with |- context [collect_slots 0 slots [] ?w1] =>
        destruct (collect_slots_quiet slots 0 [] w1)
          as (w2 & r2 & -> & HS & HT & HF & HC & HD)
      end.
      cbn in HS, HT, HF, HC, HD. rewrite app_nil_r in HT, HF.
      destruct r2 as [all_shots|[]]; msimpl;
        intros H; injection H as <- <-;
        (exists Returned; split; [|intros; first [reflexivity | discriminate]];
         unfold calls_once, effect; cbn;
         rewrite ?HT, ?HF, ?HC, ?HD, ?app_nil_r; auto).
    + intros H; injection H as <- <-.
      exists Returned. split; [solve_effect | discriminate].
  - destruct e; msimpl; intros H; injection H as <- <-;
      (eexists; split; [solve_effect | discriminate]).
Qed.

Lemma get_render_queue_inv (w w' : World St) r :
  get_render_queue api w = (w', r) ->
  exists o,
    calls_once w w' Api.get_application_render_queue o
    /\ (forall e, r = Raise e -> o = Failed e).
Proof.
  unfold get_render_queue. msimpl.
  destruct (Api.render_queue api (server w)) as [s1 [[[|item items]|]|e]];
    msimpl.
  - intros H; injection H as <- <-. eexists.
    split; [solve_effect | discriminate].
  - match goal with |- context [for_each ?xs ?body ?w1] =>
      destruct (@for_each_quiet _ body xs) with (w := w1)
        as (w2 & -> & HS & HT & HF & HC & HD)
    end.
    { intros x w0. msimpl. eexists; split; [reflexivity | solve_effect]. }
    cbn in HS, HT, HF, HC, HD. rewrite app_nil_r in HT, HF.
    intros H; injection H as <- <-. eexists. split; [|discriminate].
    unfold calls_once, effect. rewrite HT, HF, HC, HD, ?app_nil_r. auto.
  - intros H; injection H as <- <-. eexists.
    split; [solve_effect | discriminate].
  - destruct e; msimpl; intros H; injection H as <- <-;
      (eexists; split; [solve_effect|]; intros;
       first [discriminate | congruence]).
Qed.

Lemma enter_player_inv (w w' : World St) r :
  enter_player api None w = (w', r) ->
  exists o,
    calls_once w w' Api.do_application_player_enter_timeline_current o
    /\ ((o = Returned /\ r = Ok tt)
        \/ (exists e, o = Failed e /\ r = Raise e)).
Proof.
  unfold enter_player. run_op;
    (eexists; split; [solve_effect|];
     first [left; split; reflexivity
           | right; eexists; split; reflexivity]).
Qed.

Lemma set_playback_mode_inv mode frame loop (w w' : World St) r :
  set_playback_mode api mode frame loop w = (w', r) ->
  exists o,
    calls_once w w'
      (Api.set_application_player_playmode
         {| PlaymodeData.mode := mode; PlaymodeData.loop := loop;
            PlaymodeData.audio := "ON"; PlaymodeData.speed := 1;
            PlaymodeData.range := false |}) o
    /\ ((o = Returned /\ r = Ok tt)
        \/ (exists e, o = Failed e /\ r = Raise e)).
Proof.
  unfold set_playback_mode. run_op;
    (eexists; split; [solve_effect|];
     first [left; split; reflexivity
           | right; eexists; split; reflexivity]).
Qed.

Lemma print_inv line (w w' : World St) r :
  print line w = (w', r) -> r = Ok tt /\ quiet w w'.
Proof.
  msimpl. intros H; injection H as <- <-. split; [reflexivity | solve_effect].
Qed.

Lemma quiet_effect (w w1 w2 : World St) evs fs s :
  quiet w w1 -> effect w1 w2 evs fs s -> effect w w2 evs fs s.
Proof.
  intros Hq He. pose proof (effect_trans Hq He) as H. exact H.
Qed.

Lemma effect_quiet (w w1 w2 : World St) evs fs s :
  effect w w1 evs fs s -> quiet w1 w2 -> effect w w2 evs fs (server w2).
Proof.
  unfold quiet, effect. rewrite !app_nil_r.
  intros (S1 & T1 & F1 & C1 & D1) (S2 & T2 & F2 & C2 & D2).
  repeat split; congruence.
Qed.

(** One thumbnail: one snapshot request, at most one file; a result only
    when the call returned or raised an [ApiException], and then a result
    whenever the path can be opened for writing. *)
Lemma generate_thumbnail_inv shot_uuid frame path (w w' : World St) r :
  generate_thumbnail api shot_uuid frame (Some path) w = (w', r) ->
  exists o fs,
    effect w w'
      [{| ev_call :=
            Api.do_application_render_snapshot
              {| ImageSnapshot.uuid := shot_uuid;
                 ImageSnapshot.frame := frame;
                 ImageSnapshot.proxy := true |};
          ev_outcome := o |}] fs (server w')
    /\ (fs = [] \/ exists data, fs = [(path, data)])
    /\ ((exists v, r = Ok v) -> returned_or_api_error o)
    /\ (returned_or_api_error o -> disk w path = true -> exists v, r = Ok v).
Proof.
  unfold generate_thumbnail. run_op;
    (eexists; eexists; split; [solve_effect|]; split;
     [first [left; reflexivity | right; eexists; reflexivity]
     | cbn; split;
       [ intros (v & Hv); first [exact I | discriminate Hv]
       | intros; first [contradiction | congruence | eexists; reflexivity]
       ] ]).
Qed.

(** The thumbnail loop: its requests are those of a prefix of the shots,
    in order; of all the shots when it returns, and it returns when every
    call kept to the contract and every path can be opened for writing;
    its files are named after the index and the identifier of a shot. *)
Lemma generate_thumbnails_inv shots :
  forall i thumbnails (w w' : World St) r,
  generate_thumbnails api i shots thumbnails w = (w', r) ->
  exists evs fs,
    effect w w' evs fs (server w')
    /\ map ev_call evs = map snapshot_of (firstn (List.length evs) shots)
    /\ List.length evs <= List.length shots
    /\ (forall v, r = Ok v -> List.length evs = List.length shots)
    /\ (Forall (fun ev => returned_or_api_error (ev_outcome ev)) evs ->
        (forall k shot, nth_error shots k = Some shot ->
           disk w (thumb_path (i + k) (ShotInfo.uuid shot)) = true) ->
        exists v, r = Ok v)
    /\ (forall path data, In (path, data) fs ->
          exists k shot,
            k < List.length evs /\ nth_error shots k = Some shot
            /\ path = thumb_path (i + k) (ShotInfo.uuid shot)).
Proof.
  induction shots as [|shot rest IH]; intros i thumbnails w w' r H.
  - cbn in H. injection H as <- <-. exists [], [].
    split; [solve_effect|]. cbn. repeat split; eauto. intros ? ? [].
  - cbn [generate_thumbnails] in H.
    apply bind_inv in H as [(w1 & [] & Hp & H) | (e & Hp & _)];
      [|apply print_inv in Hp as (Hp & _); discriminate Hp].
    apply print_inv in Hp as (_ & Hq1).
    apply bind_inv in H as [(w2 & result & Hg & H) | (e & Hg & ->)].
    + apply generate_thumbnail_inv in Hg as (o & fs1 & He1 & Hfs1 & Hro & Ho).
      apply bind_inv in H as [(w3 & thumbnails' & Hm & H) | (e & Hm & _)].
      2:{ destruct result as [path|]; [destruct (truthy path)|]; msimpl_in Hm;
          discriminate Hm. }
      assert (Hq3 : quiet w2 w3).
      { destruct result as [path|]; [destruct (truthy path)|]; msimpl_in Hm;
          injection Hm as <- _; solve_effect. }
      apply IH in H as (evs & fs & He & Hcalls & Hlen & Hok & Hall & Hfiles).
      pose proof (effect_trans (quiet_effect Hq1 He1) (quiet_effect Hq3 He))
        as Heff.
      assert (Hd3 : disk w3 = disk w).
      { destruct Hq1 as (_ & _ & _ & _ & D1), He1 as (_ & _ & _ & _ & D2),
          Hq3 as (_ & _ & _ & _ & D3). congruence. }
      eexists; eexists. split; [exact Heff|].
      cbn [List.length firstn map app]. split; [|split; [|split; [|split]]].
      * rewrite Hcalls. reflexivity.
      * lia.
      * intros v Hv. rewrite (Hok v Hv). reflexivity.
      * intros HF Hdisk. inversion HF; subst. apply Hall; [assumption|].
        intros k shot' Hnth. rewrite Hd3, Nat.add_succ_l, <- Nat.add_succ_r.
        apply Hdisk. exact Hnth.
      * intros path data Hin. apply in_app_iff in Hin as [Hin|Hin].
        -- destruct Hfs1 as [-> | (d & ->)]; [destruct Hin|].
           destruct Hin as [Hin|[]]. injection Hin as <- <-.
           exists 0, shot. rewrite Nat.add_0_r. cbn. split; [lia|auto].
        -- apply Hfiles in Hin as (k & shot' & Hk & Hnth & ->).
           exists (S k), shot'. rewrite Nat.add_succ_r. cbn.
           split; [lia|auto].
    + apply generate_thumbnail_inv in Hg as (o & fs1 & He1 & Hfs1 & Hro & Ho).
      pose proof (quiet_effect Hq1 He1) as Heff.
      eexists; eexists. split; [exact Heff|].
      cbn [List.length firstn map]. split; [reflexivity|].
      split; [lia|]. split; [discriminate|]. split.
      * intros HF Hdisk. inversion HF as [|? ? Hout _]; subst. cbn in Hout.
        apply Ho in Hout as (v & Hv); [discriminate Hv|].
        destruct Hq1 as (_ & _ & _ & _ & D1). rewrite D1.
        specialize (Hdisk 0 shot eq_refl). rewrite Nat.add_0_r in Hdisk.
        exact Hdisk.
      * intros path data Hin.
        destruct Hfs1 as [-> | (d & ->)]; [destruct Hin|].
        destruct Hin as [Hin|[]]. injection Hin as <- <-.
        exists 0, shot. rewrite Nat.add_0_r. cbn. split; [lia|auto].
Qed.

End Operations.

(** ** Running the workflow *)

(** Close a goal on the effect of a run from the effects of its parts. *)
Ltac chain_effect :=
  unfold quiet, calls_once, effect in *;
  repeat match goal with H : _ /\ _ |- _ => destruct H end;
  repeat split;
  repeat match goal with
         | H : trace ?x = _ |- context [trace ?x] => rewrite H
         | H : files ?x = _ |- context [files ?x] => rewrite H
         | H : clock ?x = _ |- context [clock ?x] => rewrite H
         | H : disk ?x = _ |- context [disk ?x] => rewrite H
         end;
  rewrite ?app_nil_r, <- ?app_assoc; cbn [app]; rewrite ?app_nil_r;
  try reflexivity.

Section Workflow.

Variable St : Type.
Variable api : Api.Client St.

(** Split a run of [print line ;; k]. *)
Ltac step_print H :=
  let w1 := fresh "w" in
  let Hp := fresh "Hp" in
  let Hq := fresh "Hq" in
  let e := fresh "e" in
  apply bind_inv in H as [(w1 & [] & Hp & H) | (e & Hp & _)];
  [ apply print_inv in Hp as (_ & Hq)
  | apply print_inv in Hp as (Hp & _); discriminate Hp ].

Lemma review_inv project_name target_group shots (w w' : World St) r :
  review api project_name target_group shots w = (w', r) ->
  exists snaps tail fs,
    effect w w' (snaps ++ tail) fs (server w')
    /\ map ev_call snaps
       = map snapshot_of (firstn (List.length snaps) (firstn 5 shots))
    /\ List.length snaps <= Nat.min 5 (List.length shots)
    /\ review_tail tail r
    /\ (r = Ok true -> shots <> [])
    /\ (tail <> [] -> List.length snaps = Nat.min 5 (List.length shots))
    /\ (shots <> [] ->
        Forall (fun ev => returned_or_api_error (ev_outcome ev)) snaps ->
        (forall k shot, nth_error (firstn 5 shots) k = Some shot ->
           disk w (thumb_path k (ShotInfo.uuid shot)) = true) ->
        tail <> [])
    /\ (forall path data, In (path, data) fs ->
          exists k shot,
            k < List.length snaps
            /\ nth_error (firstn 5 shots) k = Some shot
            /\ path = thumb_path k (ShotInfo.uuid shot)).
Proof.
  intros H. unfold review in H. destruct shots as [|shot0 shots0].
  - step_print H. msimpl_in H. injection H as <- <-.
    exists [], [], []. split; [chain_effect|]. cbn.
    repeat split; auto; try lia; try contradiction; try discriminate;
      try (constructor; discriminate); try (intros ? ? []).
  - set (shots := shot0 :: shots0) in *.
    step_print H.
    apply bind_inv in H as [(w2 & thumbnails & Hg & H) | (e & Hg & ->)];
      apply generate_thumbnails_inv in Hg
        as (snaps & fs & He & Hcalls & Hlen & Hok & Hall & Hfiles);
      rewrite length_firstn in Hlen, Hok.
    2:{ exists snaps, [], fs. rewrite app_nil_r.
        split; [chain_effect|]. repeat split; auto; try discriminate.
        - constructor. discriminate.
        - contradiction.
        - intros _ Hc Hdisk Habs. destruct (Hall Hc) as (v & Hv);
            [|discriminate Hv].
          intros k shot Hnth. destruct Hq as (_ & _ & _ & _ & D1).
          rewrite D1. apply Hdisk. exact Hnth. }
    specialize (Hok _ eq_refl).
    apply bind_inv in H as [(w3 & queue & Hqu & H) | (e & Hqu & ->)];
      apply get_render_queue_inv in Hqu as (oq & Hqu & Hoq).
    2:{ rewrite (Hoq e eq_refl) in Hqu.
        exists snaps, [ev Api.get_application_render_queue (Failed e)], fs.
        split; [unfold ev; chain_effect|].
        repeat split; auto; try discriminate; try constructor. }
    step_print H.
    apply bind_inv in H as [(w5 & [] & Hpl & H) | (e & Hpl & ->)];
      apply enter_player_inv in Hpl
        as (op & Hpl & [(-> & Hr) | (e' & -> & Hr)]);
      try discriminate Hr.
    2:{ injection Hr as <-.
        exists snaps,
          [ev Api.get_application_render_queue oq;
           ev Api.do_application_player_enter_timeline_current (Failed e)], fs.
        split; [unfold ev; chain_effect|].
        repeat split; auto; try discriminate; try constructor. }
    apply bind_inv in H as [(w6 & [] & Hpm & H) | (e & Hpm & ->)];
      apply set_playback_mode_inv in Hpm
        as (om & Hpm & [(-> & Hr') | (e' & -> & Hr')]);
      try discriminate Hr'.
    2:{ injection Hr' as <-.
        exists snaps,
          [ev Api.get_application_render_queue oq;
           ev Api.do_application_player_enter_timeline_current Returned;
           ev (Api.set_application_player_playmode review_playmode) (Failed e)],
          fs.
        split; [unfold ev; chain_effect|].
        repeat split; auto; try discriminate; try constructor. }
    do 7 step_print H. msimpl_in H. injection H as <- <-.
    exists snaps,
      [ev Api.get_application_render_queue oq;
       ev Api.do_application_player_enter_timeline_current Returned;
       ev (Api.set_application_player_playmode review_playmode) Returned], fs.
    split; [unfold ev; chain_effect|].
    repeat split; auto; try discriminate; try constructor.
Qed.

(** Steps 1 to 3 make opening calls only; when they return groups, every
    call but the exit has returned. *)
Lemma list_groups_of_inv project_name (w w' : World St) r :
  list_groups_of api project_name w = (w', r) ->
  exists evs,
    effect w w' evs [] (server w')
    /\ Forall (fun e => opening_call (ev_call e) = true) evs
    /\ (forall g gs, r = Ok (g :: gs) ->
          exists o,
            evs = [ev Api.get_system_properties Returned;
                   ev Api.do_application_project_exit o;
                   ev (Api.do_application_project_enter project_name) Returned;
                   ev Api.get_projects_current Returned;
                   ev (Api.get_groups "ALL") Returned]).
Proof.
  intros H. unfold list_groups_of in H.
  apply bind_inv in H as [(w1 & system & Hs & H) | (e & Hs & ->)];
    apply get_system_info_inv in Hs as (os & Hs & Hos).
  2:{ eexists. split; [exact Hs|]. split; [repeat constructor | discriminate]. }
  apply bind_inv in H as [(w2 & current & Hp & H) | (e & Hp & ->)];
    apply enter_project_inv in Hp as (evs & Hp & Hopen & Hevs).
  2:{ exists (ev Api.get_system_properties os :: evs).
      split; [unfold ev; chain_effect|].
      split; [constructor; [reflexivity | exact Hopen] | discriminate]. }
  apply get_groups_inv in H as (og & Hg & Hog).
  exists (ev Api.get_system_properties os :: evs ++ [ev (Api.get_groups "ALL") og]).
  split; [unfold ev; chain_effect|]. split.
  - constructor; [reflexivity|]. apply Forall_app. split; [exact Hopen|].
    repeat constructor.
  - intros g gs ->. destruct (Hevs _ eq_refl) as (o & ->).
    rewrite (Hos _ eq_refl), (Hog _ _ eq_refl). exists o. reflexivity.
Qed.

Lemma choose_target_inv target_group_name groups (w w' : World St) r :
  choose_target target_group_name groups w = (w', r) ->
  groups <> [] ->
  w' = w /\ r = Ok (chosen target_group_name groups).
Proof.
  unfold choose_target, chosen, last_item. intros H Hne.
  assert (Hrev : rev groups <> []).
  { intros Hrev. apply Hne. rewrite <- (rev_involutive groups), Hrev.
    reflexivity. }
  destruct target_group_name as [wanted|]; [destruct (truthy wanted)|];
    destruct (rev groups) as [|g l]; try contradiction;
    msimpl_in H; injection H as <- <-; auto.
Qed.

(** Activating the group and collecting its shots: the selection comes
    first and ends the run when it fails. *)
Lemma collect_shots_of_inv target_group (w w' : World St) r :
  collect_shots_of api target_group w = (w', r) ->
  exists o rest,
    effect w w'
      (ev (Api.select_group (Group.uuid target_group) "ALL") o :: rest)
      [] (server w')
    /\ Forall (fun e => ev_call e = Api.get_constructs_current "ALL") rest
    /\ (forall e, o = Failed e -> rest = [] /\ r = Raise e)
    /\ (forall shot shots, r = Ok (shot :: shots) ->
          o = Returned
          /\ rest = [ev (Api.get_constructs_current "ALL") Returned;
                     ev (Api.get_constructs_current "ALL") Returned]).
Proof.
  intros H. unfold collect_shots_of in H.
  apply bind_inv in H as [(w1 & g & Hs & H) | (e & Hs & ->)];
    apply select_group_inv in Hs
      as (o & Hs & [(-> & g' & Hr) | (e' & -> & Hr)]);
    try discriminate Hr.
  2:{ injection Hr as <-. exists (Failed e), [].
      split; [exact Hs|]. split; [constructor|].
      split; [intros ? [= <-]; auto | discriminate]. }
  apply bind_inv in H as [(w2 & construct & Hc & H) | (e & Hc & ->)];
    apply get_current_construct_inv in Hc as (oc & Hc & Hoc).
  2:{ exists Returned, [ev (Api.get_constructs_current "ALL") oc].
      split; [unfold ev; chain_effect|].
      split; [repeat constructor|]. split; discriminate. }
  rewrite (Hoc _ eq_refl) in Hc.
  apply get_all_shots_inv in H as (oa & Ha & Hoa).
  exists Returned, [ev (Api.get_constructs_current "ALL") Returned;
               ev (Api.get_constructs_current "ALL") oa].
  split; [unfold ev; chain_effect|].
  split; [repeat constructor|]. split; [discriminate|].
  intros shot shots ->. rewrite (Hoa _ _ eq_refl). auto.
Qed.

Lemma banner_inv (w w' : World St) r :
  banner w = (w', r) -> r = Ok tt /\ quiet w w'.
Proof.
  unfold banner. msimpl. intros H; injection H as <- <-.
  split; [reflexivity | solve_effect].
Qed.

Lemma report_failure_inv (steps : M St bool) (w w' : World St) r :
  report_failure steps w = (w', r) ->
  exists w1 r1,
    steps w = (w1, r1) /\ quiet w1 w'
    /\ r = Ok (match r1 with Ok b => b | Raise _ => false end).
Proof.
  unfold report_failure. msimpl.
  destruct (steps w) as [w1 [b|e]]; [|destruct e as [e| | | | | |]].
  - intros H; injection H as <- <-. exists w1, (Ok b).
    split; [reflexivity|]. split; [apply effect_refl | reflexivity].
  - destruct (body_truthy (ApiException.body e)); msimpl;
      intros H; injection H as <- <-; eexists; eexists;
      (split; [reflexivity|]; split; [solve_effect | reflexivity]).
  - intros H; injection H as <- <-; eexists; eexists;
      (split; [reflexivity|]; split; [solve_effect | reflexivity]).
  - intros H; injection H as <- <-; eexists; eexists;
      (split; [reflexivity|]; split; [solve_effect | reflexivity]).
  - intros H; injection H as <- <-; eexists; eexists;
      (split; [reflexivity|]; split; [solve_effect | reflexivity]).
  - intros H; injection H as <- <-; eexists; eexists;
      (split; [reflexivity|]; split; [solve_effect | reflexivity]).
  - intros H; injection H as <- <-; eexists; eexists;
      (split; [reflexivity|]; split; [solve_effect | reflexivity]).
  - intros H; injection H as <- <-; eexists; eexists;
      (split; [reflexivity|]; split; [solve_effect | reflexivity]).
Qed.

Lemma snapshots_later (snaps : list event) shots :
  map ev_call snaps = map snapshot_of shots ->
  Forall (fun e => is_snapshot (ev_call e) = true) snaps.
Proof.
  revert shots. induction snaps as [|e snaps IH]; intros shots H.
  - constructor.
  - destruct shots as [|shot shots]; [discriminate|].
    cbn in H. injection H as Hc H. constructor; [|eauto].
    rewrite Hc. reflexivity.
Qed.

Lemma review_tail_later tail r :
  review_tail tail r ->
  Forall (fun e => later_call (ev_call e) = true) tail
  /\ Forall (fun e => is_snapshot (ev_call e) = false) tail.
Proof.
  intros H. inversion H; subst; split; repeat constructor.
Qed.

Lemma nth_error_firstn_In {A} (l : list A) n k x :
  nth_error (firstn n l) k = Some x -> k < n.
Proof.
  intros H. assert (k < List.length (firstn n l)) as Hk.
  { apply nth_error_Some. rewrite H. discriminate. }
  rewrite length_firstn in Hk. lia.
Qed.

Lemma filter_none {A} (f : A -> bool) (l : list A) :
  Forall (fun x => f x = false) l -> filter f l = [].
Proof.
  induction 1 as [|x l Hx _ IH]; cbn; [reflexivity|]. rewrite Hx. exact IH.
Qed.

Lemma filter_all {A} (f : A -> bool) (l : list A) :
  Forall (fun x => f x = true) l -> filter f l = l.
Proof.
  induction 1 as [|x l Hx _ IH]; cbn; [reflexivity|]. rewrite Hx, IH.
  reflexivity.
Qed.

Lemma opening_not_snapshot (c : Api.call) :
  opening_call c = true -> is_snapshot c = false.
Proof.
  destruct c; cbn; intros H; first [reflexivity | discriminate H].
Qed.

Lemma nth_error_firstn_lt {A} (l : list A) :
  forall n k, k < n -> nth_error (firstn n l) k = nth_error l k.
Proof.
  induction l as [|x l IH]; intros n k Hk.
  - rewrite firstn_nil. reflexivity.
  - destruct n as [|n]; [lia|]. destruct k as [|k]; [reflexivity|].
    cbn. apply IH. lia.
Qed.

Lemma thumbnail_requests_app (l l' : list event) :
  thumbnail_requests (l ++ l')
  = (thumbnail_requests l ++ thumbnail_requests l')%list.
Proof.
  unfold thumbnail_requests. rewrite filter_app, map_app. reflexivity.
Qed.

Lemma thumbnail_requests_none (l : list event) :
  Forall (fun e => is_snapshot (ev_call e) = false) l ->
  thumbnail_requests l = [].
Proof.
  intros H. unfold thumbnail_requests.
  rewrite (filter_none (fun e => is_snapshot (ev_call e)) H). reflexivity.
Qed.

Lemma thumbnail_requests_all (l : list event) :
  Forall (fun e => is_snapshot (ev_call e) = true) l ->
  thumbnail_requests l = map ev_call l.
Proof.
  intros H. unfold thumbnail_requests.
  rewrite (filter_all (fun e => is_snapshot (ev_call e)) H). reflexivity.
Qed.

(** The thumbnail requests of the calls that follow step 3 are those of
    the snapshot calls. *)
Lemma thumbnail_requests_later (c : Api.call) o
    (rest snaps tail : list event) :
  is_snapshot c = false ->
  Forall (fun e => is_snapshot (ev_call e) = false) rest ->
  Forall (fun e => is_snapshot (ev_call e) = true) snaps ->
  Forall (fun e => is_snapshot (ev_call e) = false) tail ->
  thumbnail_requests (ev c o :: rest ++ snaps ++ tail) = map ev_call snaps.
Proof.
  intros Hc Hrest Hsnaps Htail.
  change (ev c o :: rest ++ snaps ++ tail)%list
    with ([ev c o] ++ rest ++ snaps ++ tail)%list.
  rewrite !thumbnail_requests_app,
    (thumbnail_requests_none (l := [ev c o])),
    (thumbnail_requests_none Hrest), (thumbnail_requests_none Htail),
    (thumbnail_requests_all Hsnaps), app_nil_r by (repeat constructor; exact Hc).
  reflexivity.
Qed.

(** The run that follows step 3. *)
Lemma browse_groups_inv project_name target_group_name groups
    (w w' : World St) r :
  browse_groups api project_name target_group_name groups w = (w', r) ->
  exists evs fs,
    effect w w' evs fs (server w')
    /\ thumbnails_named evs fs
    /\ match groups with
       | [] => evs = [] /\ r = Ok false
       | _ :: _ =>
           match chosen target_group_name groups with
           | None => evs = [] /\ r = Ok false
           | Some target_group => selection_run target_group evs r
           end
       end.
Proof.
  intros H. unfold browse_groups in H.
  destruct groups as [|g0 gs0].
  { step_print H. msimpl_in H. injection H as <- <-.
    exists [], []. split; [chain_effect|]. split; [intros ? ? []|auto]. }
  apply bind_inv in H as [(w1 & target & Hc & H) | (e & Hc & ->)];
    apply choose_target_inv in Hc as (-> & Hr);
    try discriminate Hr; try discriminate.
  injection Hr as ->.
  destruct (chosen target_group_name (g0 :: gs0)) as [target_group|].
  2:{ step_print H. msimpl_in H. injection H as <- <-.
      exists [], []. split; [chain_effect|]. split; [intros ? ? []|auto]. }
  apply bind_inv in H as [(w2 & shots & Hc & H) | (e & Hc & ->)];
    apply collect_shots_of_inv in Hc as (o & rest & Hc & Hrest & Hfail & Hok).
  2:{ exists (ev (Api.select_group (Group.uuid target_group) "ALL") o :: rest),
        [].
      split; [exact Hc|]. split; [intros ? ? []|].
      exists o, rest. split; [reflexivity|]. split.
      { eapply Forall_impl; [|exact Hrest]. intros a ->. reflexivity. }
      split; [intros e0 He0; destruct (Hfail e0 He0) as (-> & [= ->]); auto|].
      split; [|discriminate].
      intros body Hin. rewrite Forall_forall in Hrest.
      apply Hrest in Hin. discriminate Hin. }
  apply review_inv in H
    as (snaps & tail & fs & He & Hcalls & Hlen & Htail & Hne & Hfull & Hcontract
        & Hfiles).
  destruct (review_tail_later Htail) as (Htl & Hts).
  pose proof (snapshots_later _ _ Hcalls) as Hsnaps.
  exists (ev (Api.select_group (Group.uuid target_group) "ALL") o
          :: rest ++ snaps ++ tail), fs.
  split; [unfold ev in *; chain_effect|]. split.
  - intros path data Hin.
    apply Hfiles in Hin as (k & shot & Hk & Hnth & ->).
    assert (Hcall : nth_error (map ev_call snaps) k = Some (snapshot_of shot)).
    { rewrite Hcalls. apply map_nth_error.
      rewrite <- (firstn_skipn (List.length snaps) (firstn 5 shots)) in Hnth.
      rewrite nth_error_app1 in Hnth; [exact Hnth|].
      rewrite length_firstn, length_firstn. lia. }
    rewrite nth_error_map in Hcall.
    destruct (nth_error snaps k) as [[c oc]|] eqn:Hev; [|discriminate].
    cbn in Hcall. injection Hcall as ->.
    exists k, {| ImageSnapshot.uuid := ShotInfo.uuid shot;
                 ImageSnapshot.frame := 0;
                 ImageSnapshot.proxy := true |}, oc.
    split; [eapply nth_error_firstn_In; exact Hnth|].
    split; [|split; [|reflexivity]].
    + right. apply in_or_app. right. apply in_or_app. left.
      apply nth_error_In in Hev. exact Hev.
    + rewrite (thumbnail_requests_later _ o); auto.
      * rewrite nth_error_map, Hev. reflexivity.
      * eapply Forall_impl; [|exact Hrest]. intros a ->. reflexivity.
  - exists o, (rest ++ snaps ++ tail)%list. split; [reflexivity|].
    split; [|split; [|split]].
    + apply Forall_app. split.
      { eapply Forall_impl; [|exact Hrest]. intros a ->. reflexivity. }
      apply Forall_app. split; [|exact Htl].
      eapply Forall_impl; [|exact Hsnaps].
      intros [c oc] Hc'. cbn in *. destruct c; try discriminate. reflexivity.
    + intros e ->. destruct (Hfail e eq_refl) as (_ & Habs). discriminate Habs.
    + intros body Hin. apply in_app_iff in Hin as [Hin|Hin].
      { rewrite Forall_forall in Hrest. apply Hrest in Hin. discriminate Hin. }
      apply in_app_iff in Hin as [Hin|Hin].
      { rewrite Forall_forall in Hsnaps. apply Hsnaps in Hin.
        discriminate Hin. }
      inversion Htail; subst; cbn in Hin;
        repeat (destruct Hin as [Hin|Hin]; [discriminate Hin|]);
        try contradiction; reflexivity.
    + intros ->. specialize (Hne eq_refl).
      destruct shots as [|shot shots]; [contradiction|].
      destruct (Hok _ _ eq_refl) as (-> & ->). split; [reflexivity|].
      inversion Htail as [r' Hr'| | | |oq]; subst; [contradiction|].
      exists snaps, oq. split; [exact Hsnaps | reflexivity].
Qed.

Lemma new_events_effect (w w' : World St) evs fs s :
  effect w w' evs fs s -> new_events w w' = evs /\ new_files w w' = fs.
Proof.
  intros (_ & HT & HF & _). unfold new_events, new_files.
  rewrite HT, HF, !skipn_app, !skipn_all, !Nat.sub_diag. auto.
Qed.

(** Every run of the workflow: it returns a boolean; its calls are opening
    calls, followed, when a group was chosen, by the selection and what
    comes after. *)
Lemma browse_project_inv project_name target_group_name (w w' : World St) r :
  browse_project api project_name target_group_name w = (w', r) ->
  exists r1 opening after fs,
    r = Ok (match r1 with Ok b => b | Raise _ => false end)
    /\ effect w w' (opening ++ after) fs (server w')
    /\ Forall (fun e => opening_call (ev_call e) = true) opening
    /\ thumbnails_named after fs
    /\ ((after = [] /\ r1 <> Ok true)
        \/ (exists target_group exit_outcome,
              opening = opening_calls project_name exit_outcome
              /\ selection_run target_group after r1)).
Proof.
  intros H. unfold browse_project in H.
  apply bind_inv in H as [(w0 & [] & Hb & H) | (e & Hb & _)];
    apply banner_inv in Hb as (Hb & Hq0); [|discriminate Hb].
  apply report_failure_inv in H as (w1 & r1 & H & Hq1 & ->).
  exists r1. unfold browse_steps in H.
  apply bind_inv in H as [(w3 & groups & Hl & H) | (e & Hl & ->)];
    apply list_groups_of_inv in Hl as (opening & Ho & Hopen & Hgroups).
  2:{ exists opening, [], []. split; [reflexivity|].
      split; [chain_effect|]. split; [exact Hopen|].
      split; [intros ? ? []|]. left. split; [reflexivity | discriminate]. }
  apply browse_groups_inv in H as (after & fs & Ha & Hnamed & Hshape).
  exists opening, after, fs. split; [reflexivity|].
  split; [chain_effect|]. split; [exact Hopen|]. split; [exact Hnamed|].
  destruct groups as [|g gs].
  - destruct Hshape as (-> & ->). left. split; [reflexivity | discriminate].
  - destruct (Hgroups _ _ eq_refl) as (oe & ->).
    destruct (chosen target_group_name (g :: gs)) as [target_group|].
    + right. exists target_group, oe. split; [reflexivity | exact Hshape].
    + destruct Hshape as (-> & ->). left.
      split; [reflexivity | discriminate].
Qed.

Lemma opening_not_later (c : Api.call) :
  opening_call c = true -> later_call c = false.
Proof.
  destruct c; cbn; intros H; first [reflexivity | discriminate H].
Qed.

(** The runs of the workflow, by their result and their calls. *)
Lemma browse_project_run project_name target_group_name
    (w : World St) :
  exists w' b,
    browse_project api project_name target_group_name w = (w', Ok b)
    /\ (b = true <->
        exists body,
          In (ev (Api.set_application_player_playmode body) Returned)
             (new_events w w'))
    /\ (b = true <->
        exists target_group exit_outcome snaps queue_outcome,
          Forall (fun e => is_snapshot (ev_call e) = true) snaps
          /\ new_events w w'
             = (opening_calls project_name exit_outcome
                ++ [ev (Api.select_group (Group.uuid target_group) "ALL")
                       Returned;
                    ev (Api.get_constructs_current "ALL") Returned;
                    ev (Api.get_constructs_current "ALL") Returned]
                ++ snaps
                ++ [ev Api.get_application_render_queue queue_outcome;
                    ev Api.do_application_player_enter_timeline_current
                       Returned;
                    ev (Api.set_application_player_playmode review_playmode)
                       Returned])%list).
Proof.
  destruct (browse_project api project_name target_group_name w)
    as [w' r] eqn:H.
  apply browse_project_inv in H
    as (r1 & opening & after & fs & -> & He & Hopen & _ & Hshape).
  apply new_events_effect in He as (Hev & _).
  exists w'. eexists. split; [reflexivity|]. rewrite Hev. clear Hev.
  assert (Hpush : forall body,
            In (ev (Api.set_application_player_playmode body) Returned)
               (opening ++ after) -> r1 = Ok true).
  { intros body Hin. apply in_app_iff in Hin as [Hin|Hin].
    { rewrite Forall_forall in Hopen. apply Hopen in Hin. discriminate Hin. }
    destruct Hshape as [(-> & _) | (g & oe & _ & o & later & -> & _ & _ & Hp & _)];
      [destruct Hin|].
    destruct Hin as [Hin|Hin]; [discriminate Hin | eauto]. }
  assert (Hdone : r1 = Ok true ->
            exists target_group exit_outcome snaps queue_outcome,
              Forall (fun e => is_snapshot (ev_call e) = true) snaps
              /\ (opening ++ after)%list
                 = (opening_calls project_name exit_outcome
                    ++ [ev (Api.select_group (Group.uuid target_group) "ALL")
                           Returned;
                        ev (Api.get_constructs_current "ALL") Returned;
                        ev (Api.get_constructs_current "ALL") Returned]
                    ++ snaps
                    ++ [ev Api.get_application_render_queue queue_outcome;
                        ev Api.do_application_player_enter_timeline_current
                           Returned;
                        ev (Api.set_application_player_playmode review_playmode)
                           Returned])%list).
  { intros ->.
    destruct Hshape
      as [(_ & Hn) | (g & oe & -> & o & later & -> & _ & _ & _ & Hok)];
      [contradiction|].
    destruct (Hok eq_refl) as (-> & snaps & oq & Hsnaps & ->).
    exists g, oe, snaps, oq. split; [exact Hsnaps | reflexivity]. }
  split; split.
  - intros Hb. destruct r1 as [[|]|]; try discriminate Hb.
    destruct (Hdone eq_refl) as (g & oe & snaps & oq & _ & ->).
    exists review_playmode. rewrite !in_app_iff. right. right. right.
    cbn. auto.
  - intros (body & Hin). rewrite (Hpush body Hin). reflexivity.
  - intros Hb. destruct r1 as [[|]|]; try discriminate Hb. auto.
  - intros (g & oe & snaps & oq & _ & Heq).
    rewrite (Hpush review_playmode); [reflexivity|].
    rewrite Heq, !in_app_iff. right. right. right. cbn. auto.
Qed.

(** C10. Whatever the client does at any call, return or raise,
    [browse_project] raises nothing: it returns a boolean.  The boolean is
    [True] exactly when the last step, the push of the playback mode, has
    returned; and exactly when the calls of the run are those of a complete
    workflow, each required one having returned (the exit from the project
    and the render queue are best effort, their outcome is free). *)
Theorem browse_project_returns_boolean project_name target_group_name
    (w : World St) :
  exists w' b,
    browse_project api project_name target_group_name w = (w', Ok b)
    /\ (b = true <->
        exists body,
          In (ev (Api.set_application_player_playmode body) Returned)
             (new_events w w'))
    /\ (b = true <->
        exists target_group exit_outcome snaps queue_outcome,
          Forall (fun e => is_snapshot (ev_call e) = true) snaps
          /\ new_events w w'
             = (opening_calls project_name exit_outcome
                ++ [ev (Api.select_group (Group.uuid target_group) "ALL")
                       Returned;
                    ev (Api.get_constructs_current "ALL") Returned;
                    ev (Api.get_constructs_current "ALL") Returned]
                ++ snaps
                ++ [ev Api.get_application_render_queue queue_outcome;
                    ev Api.do_application_player_enter_timeline_current
                       Returned;
                    ev (Api.set_application_player_playmode review_playmode)
                       Returned])%list).
Proof.
  apply browse_project_run.
Qed.

(** C4. When [select_group] fails with an [ApiException], the workflow
    returns [False], the failed call is its last call, and no call of the
    later steps (current construct, shots, thumbnails, render queue, player)
    is made. *)
Theorem select_group_failure_aborts project_name target_group_name
    (w w' : World St) r group_uuid level e :
  browse_project api project_name target_group_name w = (w', r) ->
  In (ev (Api.select_group group_uuid level) (Failed (ApiError e)))
     (new_events w w') ->
  r = Ok false
  /\ (exists before,
        new_events w w'
        = (before
           ++ [ev (Api.select_group group_uuid level) (Failed (ApiError e))])%list)
  /\ Forall (fun e => later_call (ev_call e) = false) (new_events w w').
Proof.
  intros H Hin.
  apply browse_project_inv in H
    as (r1 & opening & after & fs & -> & He & Hopen & _ & Hshape).
  apply new_events_effect in He as (Hev & _). rewrite Hev in *. clear Hev.
  apply in_app_iff in Hin as [Hin|Hin].
  { rewrite Forall_forall in Hopen. apply Hopen in Hin. discriminate Hin. }
  destruct Hshape
    as [(-> & _) | (g & oe & _ & o & later & -> & Hlater & Hfail & _)];
    [destruct Hin|].
  destruct Hin as [Hin|Hin].
  2:{ rewrite Forall_forall in Hlater. apply Hlater in Hin. discriminate Hin. }
  injection Hin as -> -> ->.
  destruct (Hfail _ eq_refl) as (-> & ->).
  split; [reflexivity|]. split; [exists opening; reflexivity|].
  apply Forall_app. split; [|repeat constructor].
  eapply Forall_impl; [|exact Hopen]. intros a. apply opening_not_later.
Qed.


(** Without an output path the thumbnail goes to the timestamped file. *)
Lemma generate_thumbnail_default_path shot_uuid frame (w w' : World St) r :
  generate_thumbnail api shot_uuid frame None w = (w', r) ->
  new_files w w' = []
  \/ exists data, new_files w w' = [(default_path shot_uuid (clock w), data)].
Proof.
  unfold generate_thumbnail, new_files, default_path. run_op; cbn [files];
    rewrite ?skipn_app, ?skipn_all, ?Nat.sub_diag; cbn [skipn app]; eauto.
Qed.

(** Once steps 1 to 3 have returned the groups, the workflow goes on with
    them. *)
Lemma browse_project_from_groups project_name target_group_name
    (w w3 : World St) groups :
  list_groups_of api project_name (fst (banner w)) = (w3, Ok groups) ->
  browse_project api project_name target_group_name w
  = report_failure (browse_groups api project_name target_group_name groups) w3.
Proof.
  intros H. unfold browse_project, bind at 1.
  destruct (banner w) as [w0 r0] eqn:Hb.
  apply banner_inv in Hb as (-> & _). cbn [fst] in H.
  unfold report_failure, except_api_any, browse_steps, bind.
  rewrite H. reflexivity.
Qed.

Lemma rev_head_last {A} (l : list A) (d : A) :
  l <> [] ->
  match rev l with x :: _ => Some x | [] => None end = Some (last l d).
Proof.
  intros Hne. destruct (exists_last Hne) as (l' & x & ->).
  rewrite rev_unit, last_last. reflexivity.
Qed.

Lemma truthy_nonempty (s : string) : truthy s = true <-> s <> "".
Proof.
  destruct s; cbn; split; congruence.
Qed.

Lemma selection_run_selects opening target_group after r :
  Forall (fun e => opening_call (ev_call e) = true) opening ->
  selection_run target_group after r ->
  selects (opening ++ after) target_group.
Proof.
  intros Hopen (o & later & -> & Hlater & _). split.
  - exists o. apply in_or_app. right. left. reflexivity.
  - intros u l o' Hin. apply in_app_iff in Hin as [Hin|[Hin|Hin]].
    + rewrite Forall_forall in Hopen. apply Hopen in Hin. discriminate Hin.
    + injection Hin as <- _ _. reflexivity.
    + rewrite Forall_forall in Hlater. apply Hlater in Hin. discriminate Hin.
Qed.

(** C3, as the workflow has it.  When steps 1 to 3 return a non-empty
    sequence of groups: for a target name that is given and not empty, the
    workflow selects the first group with exactly that name and no other, and
    when no group has that name it returns [False] without selecting any
    group or making any further call; for a target name that is absent or
    empty, it selects the last group of the sequence and no other. *)
Theorem target_group_selection project_name target_group_name
    (w w3 w' : World St) groups r :
  list_groups_of api project_name (fst (banner w)) = (w3, Ok groups) ->
  groups <> [] ->
  browse_project api project_name target_group_name w = (w', r) ->
  (forall wanted g,
      target_group_name = Some wanted -> wanted <> "" ->
      find (fun g => Group.name g =? wanted) groups = Some g ->
      selects (new_events w w') g)
  /\ (forall wanted,
        target_group_name = Some wanted -> wanted <> "" ->
        find (fun g => Group.name g =? wanted) groups = None ->
        r = Ok false /\ selects_none (new_events w w')
        /\ new_events w3 w' = [])
  /\ (target_group_name = None \/ target_group_name = Some "" ->
      forall d, selects (new_events w w') (last groups d)).
Proof.
  intros Hl Hne H.
  rewrite (browse_project_from_groups project_name target_group_name _ Hl) in H.
  apply report_failure_inv in H as (w1 & r1 & H & Hq1 & ->).
  apply browse_groups_inv in H as (after & fs & Ha & _ & Hshape).
  destruct (banner w) as [w0 r0] eqn:Hb.
  apply banner_inv in Hb as (_ & Hq0). cbn [fst] in Hl.
  apply list_groups_of_inv in Hl as (opening & Ho & Hopen & _).
  assert (Hev : new_events w w' = (opening ++ after)%list).
  { eapply new_events_effect with (fs := fs) (s := server w'). chain_effect. }
  assert (Hev3 : new_events w3 w' = after).
  { eapply new_events_effect with (fs := fs) (s := server w'). chain_effect. }
  rewrite Hev, Hev3. clear Hev Hev3.
  destruct groups as [|g0 gs0]; [contradiction|].
  split; [|split].
  - intros wanted g -> Hw Hfind. apply truthy_nonempty in Hw.
    unfold chosen in Hshape. rewrite Hw, Hfind in Hshape.
    eapply selection_run_selects; eauto.
  - intros wanted -> Hw Hfind. apply truthy_nonempty in Hw.
    unfold chosen in Hshape. rewrite Hw, Hfind in Hshape.
    destruct Hshape as (-> & ->). split; [reflexivity|]. split; [|reflexivity].
    intros u l o Hin. rewrite app_nil_r in Hin.
    rewrite Forall_forall in Hopen. apply Hopen in Hin. discriminate Hin.
  - intros Ht d.
    assert (Hc : chosen target_group_name (g0 :: gs0)
                 = Some (last (g0 :: gs0) d)).
    { destruct Ht as [-> | ->]; cbn [chosen truthy];
        apply rev_head_last; discriminate. }
    rewrite Hc in Hshape. eapply selection_run_selects; eauto.
Qed.

(** The thumbnail stage of a run in which step 5 has collected the shots:
    the snapshot calls of the run, their requests, and the files written. *)
Lemma thumbnail_stage project_name target_group_name
    (w w3 w5 w' : World St) groups target_group shots r :
  list_groups_of api project_name (fst (banner w)) = (w3, Ok groups) ->
  groups <> [] ->
  choose_target target_group_name groups w3 = (w3, Ok (Some target_group)) ->
  collect_shots_of api target_group w3 = (w5, Ok shots) ->
  browse_project api project_name target_group_name w = (w', r) ->
  exists snaps,
    thumbnail_requests (new_events w w') = map ev_call snaps
    /\ incl snaps (new_events w w')
    /\ Forall (fun e => is_snapshot (ev_call e) = true) snaps
    /\ map ev_call snaps
       = map snapshot_of (firstn (List.length snaps) (firstn 5 shots))
    /\ List.length snaps <= Nat.min 5 (List.length shots)
    /\ (r = Ok true -> List.length snaps = Nat.min 5 (List.length shots))
    /\ (List.length snaps < Nat.min 5 (List.length shots) -> r = Ok false)
    /\ (Forall (fun e => returned_or_api_error (ev_outcome e)) snaps ->
        (forall k shot,
            nth_error (firstn 5 shots) k = Some shot ->
            disk w (thumb_path k (ShotInfo.uuid shot)) = true) ->
        List.length snaps = Nat.min 5 (List.length shots))
    /\ (forall path data,
          In (path, data) (new_files w w') ->
          exists k shot,
            k < List.length snaps
            /\ nth_error (firstn 5 shots) k = Some shot
            /\ path = thumb_path k (ShotInfo.uuid shot)).
Proof.
  intros Hl Hne Hc Hs H.
  rewrite (browse_project_from_groups project_name target_group_name _ Hl) in H.
  apply report_failure_inv in H as (w1 & r1 & H & Hq1 & ->).
  destruct groups as [|g0 gs0]; [contradiction|].
  unfold browse_groups, bind in H. rewrite Hc, Hs in H.
  destruct (banner w) as [w0 r0] eqn:Hb.
  apply banner_inv in Hb as (_ & Hq0). cbn [fst] in Hl.
  apply list_groups_of_inv in Hl as (opening & Ho & Hopen & _).
  apply collect_shots_of_inv in Hs as (o & rest & Hs & Hrest & _).
  apply review_inv in H
    as (snaps & tail & fs & He & Hcalls & Hlen & Htail & _ & Hfull & Hcontract
        & Hfiles).
  destruct (review_tail_later Htail) as (_ & Hts).
  pose proof (snapshots_later _ _ Hcalls) as Hsnaps.
  assert (Hd : disk w5 = disk w) by chain_effect.
  assert (Hev : new_events w w'
                = (opening
                   ++ ev (Api.select_group (Group.uuid target_group) "ALL") o
                      :: rest ++ snaps ++ tail)%list
                /\ new_files w w' = fs).
  { eapply new_events_effect with (s := server w').
    unfold ev in *. chain_effect. }
  destruct Hev as (Hev & Hfs). rewrite Hev, Hfs. clear Hev Hfs.
  exists snaps. split; [|split; [|split; [|split; [|split; [|split;
                          [|split; [|split]]]]]]].
  - unfold thumbnail_requests. rewrite filter_app.
    cbn [filter ev_call ev is_snapshot]. rewrite !filter_app.
    rewrite (filter_none (fun e => is_snapshot (ev_call e)) (l := opening)),
            (filter_none (fun e => is_snapshot (ev_call e)) (l := rest)),
            (filter_none (fun e => is_snapshot (ev_call e)) (l := tail)),
            (filter_all (fun e => is_snapshot (ev_call e)) (l := snaps)).
    + cbn. rewrite app_nil_r. reflexivity.
    + exact Hsnaps.
    + exact Hts.
    + eapply Forall_impl; [|exact Hrest]. intros a ->. reflexivity.
    + eapply Forall_impl; [|exact Hopen]. intros a.
      apply opening_not_snapshot.
  - intros x Hx. apply in_or_app. right. right. apply in_or_app. right.
    apply in_or_app. left. exact Hx.
  - exact Hsnaps.
  - exact Hcalls.
  - exact Hlen.
  - intros Hr. apply Hfull.
    destruct r1 as [[|]|e]; try discriminate Hr.
    inversion Htail; subst; [congruence | discriminate].
  - intros Hlt. destruct r1 as [[|]|e]; try reflexivity.
    inversion Htail; subst; [congruence|].
    assert (List.length snaps = Nat.min 5 (List.length shots))
      by (apply Hfull; discriminate).
    lia.
  - intros Hk Hdisk.
    destruct shots as [|shot shots']; [cbn in *; lia|].
    apply Hfull. apply Hcontract; [discriminate | exact Hk |].
    intros k shot1 Hnth. rewrite Hd. apply Hdisk. exact Hnth.
  - exact Hfiles.
Qed.


(** Without an output path the thumbnail goes to the timestamped file; with
    one, to the path given. *)
Lemma generate_thumbnail_path shot_uuid frame output_path
    (w w' : World St) r path data :
  generate_thumbnail api shot_uuid frame output_path w = (w', r) ->
  In (path, data) (new_files w w') ->
  path = match output_path with
         | Some given => given
         | None => default_path shot_uuid (clock w)
         end.
Proof.
  destruct output_path as [given|].
  - intros H Hin.
    apply generate_thumbnail_inv in H as (o & fs & He & Hfs & _).
    apply new_events_effect in He as (_ & Hnew). rewrite Hnew in Hin.
    destruct Hfs as [-> | (d & ->)]; [destruct Hin|].
    destruct Hin as [Hin|[]]. injection Hin as <- _. reflexivity.
  - intros H Hin.
    apply generate_thumbnail_default_path in H as [H | (d & H)];
      rewrite H in Hin; [destruct Hin|].
    destruct Hin as [Hin|[]]. injection Hin as <- _. reflexivity.
Qed.

Lemma thumb_path_no_timestamp k shot_uuid shot_uuid' now :
  thumb_path k shot_uuid <> default_path shot_uuid' now.
Proof.
  unfold thumb_path, default_path. cbn [append]. discriminate.
Qed.

(** C9, as the program has it.  Every file the workflow writes lies under
    [/tmp] and is named [project_thumb_], an index below five, and the first
    eight characters of the identifier of a shot a snapshot was requested
    for, the index being that of the request among the thumbnail requests of
    the run; the name is no timestamped one.  When step 5 has collected the
    shots, the index is that of the shot among them.  [generate_thumbnail]
    writes to the path it is given, and to the timestamped name
    [thumbnail_], identifier prefix, time, under [/tmp], only when it is
    given none. *)
Theorem thumbnail_files_named :
  (forall project_name target_group_name (w w' : World St) r path data,
      browse_project api project_name target_group_name w = (w', r) ->
      In (path, data) (new_files w w') ->
      prefix "/tmp/" path = true
      /\ (forall shot_uuid now, path <> default_path shot_uuid now)
      /\ exists k body o,
           k < 5
           /\ In (ev (Api.do_application_render_snapshot body) o)
                 (new_events w w')
           /\ nth_error (thumbnail_requests (new_events w w')) k
              = Some (Api.do_application_render_snapshot body)
           /\ path = "/tmp/project_thumb_" ++ str_nat k ++ "_"
                     ++ slice_to 8 (ImageSnapshot.uuid body) ++ ".jpg")
  /\ (forall project_name target_group_name (w w3 w5 w' : World St)
        groups target_group shots r path data,
        list_groups_of api project_name (fst (banner w)) = (w3, Ok groups) ->
        groups <> [] ->
        choose_target target_group_name groups w3
        = (w3, Ok (Some target_group)) ->
        collect_shots_of api target_group w3 = (w5, Ok shots) ->
        browse_project api project_name target_group_name w = (w', r) ->
        In (path, data) (new_files w w') ->
        exists i shot,
          i < 5
          /\ nth_error shots i = Some shot
          /\ nth_error (thumbnail_requests (new_events w w')) i
             = Some (snapshot_of shot)
          /\ path = "/tmp/project_thumb_" ++ str_nat i ++ "_"
                    ++ slice_to 8 (ShotInfo.uuid shot) ++ ".jpg")
  /\ (forall shot_uuid frame output_path (w w' : World St) r path data,
        generate_thumbnail api shot_uuid frame output_path w = (w', r) ->
        In (path, data) (new_files w w') ->
        match output_path with
        | Some given => path = given
        | None =>
            prefix "/tmp/" path = true
            /\ path = "/tmp/thumbnail_" ++ slice_to 8 shot_uuid ++ "_"
                      ++ strftime (clock w) ++ ".jpg"
        end).
Proof.
  split; [|split].
  - intros project_name target_group_name w w' r path data H Hin.
    apply browse_project_inv in H
      as (r1 & opening & after & fs & _ & He & Hopen & Hnamed & _).
    apply new_events_effect in He as (-> & Hfs). rewrite Hfs in Hin.
    apply Hnamed in Hin as (k & body & o & Hk & Hin & Hnth & ->).
    split; [reflexivity|]. split; [intros; apply thumb_path_no_timestamp|].
    exists k, body, o. split; [exact Hk|].
    split; [|split; [|reflexivity]].
    + apply in_or_app. right. exact Hin.
    + rewrite thumbnail_requests_app, thumbnail_requests_none; [exact Hnth|].
      eapply Forall_impl; [|exact Hopen]. intros a.
      apply opening_not_snapshot.
  - intros project_name target_group_name w w3 w5 w' groups target_group shots
      r path data Hl Hne Hc Hs H Hin.
    destruct (@thumbnail_stage _ _ _ _ _ _ _ _ _ _ Hl Hne Hc Hs H)
      as (snaps & Hreq & _ & _ & Hcalls & _ & _ & _ & _ & Hfiles).
    destruct (Hfiles _ _ Hin) as (k & shot & Hk & Hnth & ->).
    pose proof (nth_error_firstn_In _ _ _ Hnth) as Hk5.
    exists k, shot. split; [exact Hk5|].
    split; [rewrite <- Hnth; symmetry; apply nth_error_firstn_lt; exact Hk5|].
    split; [|reflexivity].
    rewrite Hreq, Hcalls, nth_error_map, nth_error_firstn_lt by exact Hk.
    rewrite Hnth. reflexivity.
  - intros shot_uuid frame output_path w w' r path data H Hin.
    pose proof (@generate_thumbnail_path _ _ _ _ _ _ _ _ H Hin) as Hp.
    destruct output_path as [given|]; [exact Hp|].
    subst path. split; reflexivity.
Qed.

(** [generate_thumbnail] writes a file only for a response that declares
    [image/jpeg] and has data. *)
Lemma generate_thumbnail_writes_only_images shot_uuid frame path
    (w w' : World St) r :
  generate_thumbnail api shot_uuid frame (Some path) w = (w', r) ->
  new_files w w' <> [] ->
  exists s' response data,
    Api.render_snapshot api
      {| ImageSnapshot.uuid := shot_uuid; ImageSnapshot.frame := frame;
         ImageSnapshot.proxy := true |} (server w)
    = (s', Ok response)
    /\ HTTPResponse.content_type response = Some "image/jpeg"
    /\ HTTPResponse.data response = Some data
    /\ new_files w w' = [(path, data)].
Proof.
  unfold generate_thumbnail, new_files. msimpl.
  destruct (Api.render_snapshot api _ (server w)) as [s1 [response|e]] eqn:Hcall;
    msimpl.
  - destruct (HTTPResponse.content_type response) as [content_type|] eqn:Hct.
    + destruct (content_type =? "image/jpeg") eqn:Hjpeg.
      * apply String.eqb_eq in Hjpeg as ->.
        destruct (HTTPResponse.data response) as [data|] eqn:Hdata; msimpl;
          [destruct (disk w path)|];
          intros H; injection H as <- <-; cbn [files].
        -- intros _. exists s1, response, data.
           rewrite skipn_app, skipn_all, Nat.sub_diag. auto.
        -- rewrite skipn_all. contradiction.
        -- rewrite skipn_all. contradiction.
      * msimpl. intros H; injection H as <- <-; cbn [files].
        rewrite skipn_all. contradiction.
    + msimpl. intros H; injection H as <- <-; cbn [files].
      rewrite skipn_all. contradiction.
  - destruct e; msimpl; intros H; injection H as <- <-; cbn [files];
      rewrite skipn_all; contradiction.
Qed.

(** C2, what the code does.  For a response whose declared content type
    is not [image/jpeg], [generate_thumbnail] writes nothing, and returns the
    output path all the same, not [None]; the workflow then counts the
    thumbnail as saved. *)
Theorem generate_thumbnail_not_image shot_uuid frame path
    (w : World St) s' response :
  Api.render_snapshot api
    {| ImageSnapshot.uuid := shot_uuid; ImageSnapshot.frame := frame;
       ImageSnapshot.proxy := true |} (server w)
  = (s', Ok response) ->
  HTTPResponse.content_type response <> Some "image/jpeg" ->
  exists w',
    generate_thumbnail api shot_uuid frame (Some path) w = (w', Ok (Some path))
    /\ new_files w w' = [].
Proof.
  intros Hcall Hct. unfold generate_thumbnail, new_files. msimpl.
  rewrite Hcall. msimpl.
  destruct (HTTPResponse.content_type response) as [content_type|].
  - destruct (content_type =? "image/jpeg") eqn:Hjpeg.
    + apply String.eqb_eq in Hjpeg as ->. contradiction.
    + msimpl. eexists. split; [reflexivity|]. cbn [files]. apply skipn_all.
  - msimpl. eexists. split; [reflexivity|]. cbn [files]. apply skipn_all.
Qed.

(** The error handler of [get_groups] on an error with a JSON body: the
    listing fails open. *)
Lemma get_groups_error_structured (detailed : bool) (w : World St) s' e raw
    document :
  Api.groups api (if detailed then "ALL" else "") (server w)
  = (s', Raise (ApiError e)) ->
  ApiException.body e = Some (Structured raw document) ->
  exists w', get_groups api detailed w = (w', Ok []).
Proof.
  intros Hcall Hbody. unfold get_groups. msimpl. rewrite Hcall. msimpl.
  rewrite Hbody. msimpl. eexists. reflexivity.
Qed.

(** The sibling [list_projects] guards the body: it fails open on an error
    without body. *)
Lemma list_projects_error_without_body (w : World St) s' e :
  Api.projects api (server w) = (s', Raise (ApiError e)) ->
  ApiException.body e = None ->
  exists w', list_projects api w = (w', Ok []).
Proof.
  intros Hcall Hbody. unfold list_projects. msimpl. rewrite Hcall. msimpl.
  rewrite Hbody. cbn [body_truthy]. msimpl. eexists. reflexivity.
Qed.

(** C6, what the code does.  On an [ApiException] without body the handler
    of [get_groups] decodes the missing body: the listing does not return the
    empty sequence, it raises an [AttributeError]. *)
Theorem get_groups_error_without_body (detailed : bool) (w : World St) s' e :
  Api.groups api (if detailed then "ALL" else "") (server w)
  = (s', Raise (ApiError e)) ->
  ApiException.body e = None ->
  exists w',
    get_groups api detailed w
    = (w', Raise (AttributeError "'NoneType' object has no attribute 'decode'")).
Proof.
  intros Hcall Hbody. unfold get_groups. msimpl. rewrite Hcall. msimpl.
  rewrite Hbody. msimpl. eexists. reflexivity.
Qed.

(** The handler of [enter_project] on an error whose body is not JSON: the
    decoding error replaces the [ApiException]. *)
Lemma enter_project_unstructured_error project_name (w : World St)
    s1 exit_reply s2 e raw :
  Api.project_exit api (server w) = (s1, exit_reply) ->
  returned_or_api_error (outcome_of exit_reply) ->
  Api.project_enter api project_name s1 = (s2, Raise (ApiError e)) ->
  ApiException.body e = Some (Unstructured raw) ->
  exists w',
    enter_project api project_name w = (w', Raise (ValueError "Expecting value")).
Proof.
  intros Hexit Hc Henter Hbody. unfold enter_project. msimpl. rewrite Hexit.
  destruct exit_reply as [[]|[a| | | | | |]]; cbn in Hc; try contradiction;
    msimpl; rewrite Henter; msimpl; rewrite Hbody; cbn [body_truthy]; msimpl;
    eexists; reflexivity.
Qed.

(** [enter_project] on replies within the client's contract (a response,
    or an [ApiException] whose body, if any, is a JSON document): the exit is
    called first and its [ApiException] is ignored, the project is entered
    next; the result is the [ApiException] exactly when the entry (entering,
    then fetching the current project) fails with it, and otherwise the
    current project the client reports. *)
Theorem enter_project_after_exit project_name (w : World St)
    s1 exit_reply s2 enter_reply s3 current_reply :
  Api.project_exit api (server w) = (s1, exit_reply) ->
  returned_or_api_error (outcome_of exit_reply) ->
  Api.project_enter api project_name s1 = (s2, enter_reply) ->
  keeps_contract enter_reply ->
  Api.projects_current api s2 = (s3, current_reply) ->
  keeps_contract current_reply ->
  exists w' r rest,
    enter_project api project_name w = (w', r)
    /\ new_events w w'
       = ev Api.do_application_project_exit (outcome_of exit_reply)
         :: ev (Api.do_application_project_enter project_name)
               (outcome_of enter_reply)
         :: rest
    /\ (forall e,
          r = Raise (ApiError e) <->
          enter_reply = Raise (ApiError e)
          \/ (enter_reply = Ok tt /\ current_reply = Raise (ApiError e)))
    /\ (forall current,
          r = Ok current <->
          enter_reply = Ok tt /\ current_reply = Ok current)
    /\ ((exists e, r = Raise (ApiError e)) \/ (exists current, r = Ok current)).
Proof.
  intros Hexit Hc1 Henter Hc2 Hcurrent Hc3.
  unfold enter_project, new_events. msimpl. rewrite Hexit.
  assert (Hskip : forall (l l' : list event),
            skipn (List.length l) (l ++ l') = l').
  { intros l l'. rewrite skipn_app, skipn_all, Nat.sub_diag. reflexivity. }
  destruct exit_reply as [[]|[a| | | | | |]]; cbn in Hc1; try contradiction;
    msimpl; rewrite Henter;
    (destruct enter_reply as [[]|[a1| | | | | |]]; cbn in Hc2;
       try contradiction; msimpl;
     [ rewrite Hcurrent;
       destruct current_reply as [current|[a2| | | | | |]]; cbn in Hc3;
         try contradiction; msimpl;
       [ | unfold loggable in Hc3;
           destruct (ApiException.body a2) as [[| |]|]; try contradiction;
           cbn [body_truthy]; msimpl ]
     | unfold loggable in Hc2;
       destruct (ApiException.body a1) as [[| |]|]; try contradiction;
       cbn [body_truthy]; msimpl ]);
    (eexists; eexists; eexists; split; [reflexivity|]; cbn [trace];
     rewrite <- ?app_assoc; cbn [app]; rewrite Hskip;
     split; [reflexivity|];
     split; [intros e0; split;
             [intros [= <-]; auto
             |intros [[= <-] | ([= ] & [= <-])]; reflexivity] |];
     split; [intros c0; split;
             [intros [= <-]; auto | intros ([= ] & [= <-]); reflexivity] |];
     eauto).
Qed.

(** C7, what the code does.  [enter_project] calls the exit first and goes
    on whether the exit returned or failed with an [ApiException]; it then
    enters the named project.  When the entry (entering, then fetching the
    current project) fails with an [ApiException] whose body is not JSON, the
    handler's [json.loads] raises before the [raise] is reached:
    [enter_project] fails with a [ValueError], not with the
    [ApiException]. *)
Theorem enter_project_decoding_error project_name (w : World St)
    s1 exit_reply s2 enter_reply s3 current_reply e raw :
  Api.project_exit api (server w) = (s1, exit_reply) ->
  returned_or_api_error (outcome_of exit_reply) ->
  Api.project_enter api project_name s1 = (s2, enter_reply) ->
  Api.projects_current api s2 = (s3, current_reply) ->
  enter_reply = Raise (ApiError e)
  \/ (enter_reply = Ok tt /\ current_reply = Raise (ApiError e)) ->
  ApiException.body e = Some (Unstructured raw) ->
  exists w' msg rest,
    enter_project api project_name w = (w', Raise (ValueError msg))
    /\ new_events w w'
       = ev Api.do_application_project_exit (outcome_of exit_reply)
         :: ev (Api.do_application_project_enter project_name)
               (outcome_of enter_reply)
         :: rest.
Proof.
  intros Hexit Hc Henter Hcurrent Hfail Hbody.
  unfold enter_project, new_events. msimpl. rewrite Hexit.
  assert (Hskip : forall (l l' : list event),
            skipn (List.length l) (l ++ l') = l').
  { intros l l'. rewrite skipn_app, skipn_all, Nat.sub_diag. reflexivity. }
  destruct exit_reply as [[]|[a| | | | | |]]; cbn in Hc; try contradiction;
    msimpl; rewrite Henter;
    (destruct Hfail as [-> | (-> & ->)]; msimpl;
     [|rewrite Hcurrent; msimpl]);
    rewrite Hbody; cbn [body_truthy]; msimpl;
    (eexists; eexists; eexists; split; [reflexivity|]; cbn [trace];
     rewrite <- ?app_assoc; cbn [app]; rewrite Hskip; reflexivity).
Qed.

End Workflow.

(** ** The properties on the scripted server *)

Lemma generate_thumbnail_not_image_witness :
  exists w',
    generate_thumbnail (Demo.client Demo.busy) "shot-0001-aaaa" 0
      (Some "/tmp/project_thumb_0_shot-000.jpg") Demo.start
    = (w', Ok (Some "/tmp/project_thumb_0_shot-000.jpg"))
    /\ new_files Demo.start w' = [].
Proof.
  apply (generate_thumbnail_not_image (Demo.client Demo.busy)
           "shot-0001-aaaa" 0 "/tmp/project_thumb_0_shot-000.jpg" Demo.start
           (s' := tt) (response := Demo.html)).
  - reflexivity.
  - discriminate.
Defined.

Lemma get_groups_error_without_body_witness :
  exists w',
    get_groups (Demo.client Demo.no_listing) true Demo.start
    = (w', Raise (AttributeError "'NoneType' object has no attribute 'decode'")).
Proof.
  apply (get_groups_error_without_body (Demo.client Demo.no_listing) true
           Demo.start (s' := tt)
           (e := Demo.error 500 "Internal Server Error" None)).
  - reflexivity.
  - reflexivity.
Defined.

Lemma enter_project_after_exit_witness :
  exists w',
    enter_project (Demo.client Demo.already_out) "Project" Demo.start
    = (w', Ok Demo.project).
Proof.
  destruct (enter_project_after_exit (Demo.client Demo.already_out) "Project"
              Demo.start
              (s1 := tt)
              (exit_reply := Raise (ApiError (Demo.error 400 "Bad Request" None)))
              (s2 := tt) (enter_reply := Ok tt)
              (s3 := tt) (current_reply := Ok Demo.project)
              eq_refl I eq_refl I eq_refl I)
    as (w' & r & rest & Hrun & _ & _ & Hok & _).
  exists w'. rewrite Hrun. f_equal. apply Hok. split; reflexivity.
Defined.

(** C3 as the specification states it fails: an empty target name is given and
    matches no group, yet the workflow does not abort; it selects the last
    group and succeeds. *)
Lemma empty_target_name_selects_last :
  snd (list_groups_of (Demo.client (Demo.usual Demo.reel)) "Project"
         (fst (banner Demo.start)))
  = Ok [Demo.group_a; Demo.group_b]
  /\ find (fun g => Group.name g =? "") [Demo.group_a; Demo.group_b] = None
  /\ snd (browse_project (Demo.client (Demo.usual Demo.reel)) "Project"
            (Some "") Demo.start)
     = Ok true
  /\ In (ev (Api.select_group "group-b" "ALL") Returned)
        (trace (fst (browse_project (Demo.client (Demo.usual Demo.reel))
                       "Project" (Some "") Demo.start))).
Proof.
  split; [vm_compute; reflexivity|]. split; [reflexivity|].
  split; [vm_compute; reflexivity|].
  vm_compute. do 5 right. left. reflexivity.
Qed.

Lemma target_group_selection_witness :
  selects
    (new_events Demo.start
       (fst (browse_project (Demo.client (Demo.usual Demo.reel)) "Project"
               (Some "A") Demo.start)))
    Demo.group_a.
Proof.
  destruct (target_group_selection (Demo.client (Demo.usual Demo.reel))
              "Project" (Some "A") Demo.start
              (w3 := fst (list_groups_of (Demo.client (Demo.usual Demo.reel))
                            "Project" (fst (banner Demo.start))))
              (w' := fst (browse_project (Demo.client (Demo.usual Demo.reel))
                            "Project" (Some "A") Demo.start))
              (groups := [Demo.group_a; Demo.group_b])
              (r := Ok true))
    as (Hfound & _ & _).
  - vm_compute. reflexivity.
  - discriminate.
  - vm_compute. reflexivity.
  - apply (Hfound "A" Demo.group_a); [reflexivity | discriminate | reflexivity].
Defined.

Lemma select_group_failure_aborts_witness :
  snd (browse_project (Demo.client Demo.refused) "Project" None Demo.start)
  = Ok false.
Proof.
  apply (select_group_failure_aborts (Demo.client Demo.refused) "Project" None
           Demo.start
           (w' := fst (browse_project (Demo.client Demo.refused) "Project" None
                         Demo.start))
           "group-b" "ALL" (Demo.error 404 "Not Found" None)).
  - apply surjective_pairing.
  - vm_compute. do 5 right. left. reflexivity.
Defined.



Lemma enter_project_decoding_error_witness :
  (exists w' msg,
      enter_project (Demo.client Demo.garbled) "Project" Demo.start
      = (w', Raise (ValueError msg)))
  /\ (exists w' msg,
        enter_project Demo.lost "Project" Demo.start
        = (w', Raise (ValueError msg))).
Proof.
  split.
  - destruct (enter_project_decoding_error (Demo.client Demo.garbled)
                "Project" Demo.start
                (s1 := tt) (exit_reply := Ok tt) (s2 := tt)
                (enter_reply :=
                   Raise (ApiError
                            (Demo.error 502 "Bad Gateway"
                               (Some (Unstructured
                                        "<html>Bad Gateway</html>")))))
                (s3 := tt) (current_reply := Ok Demo.project)
                (e := Demo.error 502 "Bad Gateway"
                        (Some (Unstructured "<html>Bad Gateway</html>")))
                (raw := "<html>Bad Gateway</html>")
                eq_refl I eq_refl eq_refl (or_introl eq_refl) eq_refl)
      as (w' & msg & rest & Hrun & _).
    exists w', msg. exact Hrun.
  - destruct (enter_project_decoding_error Demo.lost "Project" Demo.start
                (s1 := tt) (exit_reply := Ok tt) (s2 := tt)
                (enter_reply := Ok tt) (s3 := tt)
                (current_reply :=
                   Raise (ApiError
                            (Demo.error 502 "Bad Gateway"
                               (Some (Unstructured
                                        "<html>Bad Gateway</html>")))))
                (e := Demo.error 502 "Bad Gateway"
                        (Some (Unstructured "<html>Bad Gateway</html>")))
                (raw := "<html>Bad Gateway</html>")
                eq_refl I eq_refl eq_refl
                (or_intror (conj eq_refl eq_refl)) eq_refl)
      as (w' & msg & rest & Hrun & _).
    exists w', msg. exact Hrun.
Defined.


(** C9 as the specification states it fails: the file the workflow writes for the
    first shot carries the index and the identifier prefix, and is not a
    timestamped name of any shot at any time. *)
Lemma workflow_thumbnail_has_no_timestamp :
  In ("/tmp/project_thumb_0_shot-000.jpg", "JFIF")
     (files (fst (browse_project (Demo.client (Demo.usual Demo.reel))
                    "Project" None Demo.start)))
  /\ forall shot_uuid now,
       "/tmp/project_thumb_0_shot-000.jpg" <> default_path shot_uuid now.
Proof.
  split.
  - vm_compute. left. reflexivity.
  - intros shot_uuid now. unfold default_path. cbn [append]. discriminate.
Qed.

Lemma thumbnail_files_named_witness :
  exists i shot,
    i < 5
    /\ nth_error
         (summaries 0
            [[Demo.shot "shot-0001-aaaa" "s1"; Demo.shot "shot-0002-bbbb" "s2"];
             [Demo.shot "shot-0003-cccc" "s3"]]) i
       = Some shot
    /\ nth_error
         (thumbnail_requests
            (new_events Demo.start
               (fst (browse_project (Demo.client (Demo.usual Demo.reel))
                       "Project" None Demo.start)))) i
       = Some (snapshot_of shot)
    /\ "/tmp/project_thumb_1_shot-000.jpg"
       = "/tmp/project_thumb_" ++ str_nat i ++ "_"
         ++ slice_to 8 (ShotInfo.uuid shot) ++ ".jpg".
Proof.
  destruct (thumbnail_files_named (Demo.client (Demo.usual Demo.reel)))
    as (_ & Hindex & _).
  apply (Hindex "Project" None Demo.start
           (fst (list_groups_of (Demo.client (Demo.usual Demo.reel))
                   "Project" (fst (banner Demo.start))))
           (fst (collect_shots_of (Demo.client (Demo.usual Demo.reel))
                   Demo.group_b
                   (fst (list_groups_of (Demo.client (Demo.usual Demo.reel))
                           "Project" (fst (banner Demo.start))))))
           (fst (browse_project (Demo.client (Demo.usual Demo.reel))
                   "Project" None Demo.start))
           [Demo.group_a; Demo.group_b] Demo.group_b
           (summaries 0
              [[Demo.shot "shot-0001-aaaa" "s1";
                Demo.shot "shot-0002-bbbb" "s2"];
               [Demo.shot "shot-0003-cccc" "s3"]])
           (Ok true) "/tmp/project_thumb_1_shot-000.jpg" "JFIF").
  - vm_compute. reflexivity.
  - discriminate.
  - vm_compute. reflexivity.
  - vm_compute. reflexivity.
  - vm_compute. reflexivity.
  - vm_compute. right. left. reflexivity.
Defined.

(** ** Further properties of the operations *)

Section OperationResults.

Variable St : Type.
Variable api : Api.Client St.

(** [get_all_shots] fails open: on an [ApiException], whatever its body, it
    returns the empty list after its single call. *)
Theorem get_all_shots_fails_open (w : World St) s' e :
  Api.constructs_current api "ALL" (server w) = (s', Raise (ApiError e)) ->
  exists w',
    get_all_shots api w = (w', Ok [])
    /\ calls_once w w' (Api.get_constructs_current "ALL") (Failed (ApiError e))
    /\ server w' = s'.
Proof.
  intros Hcall. unfold get_all_shots. msimpl. rewrite Hcall. msimpl.
  eexists. split; [reflexivity|]. split; [solve_effect | reflexivity].
Qed.

Lemma collect_slots_none slots :
  forall slot_idx all_shots (w : World St),
  all_some (map (fun slot => safe_get_attr (Some slot) Slot.shots []) slots)
  = None ->
  exists w',
    collect_slots slot_idx slots all_shots w
    = (w', Raise (TypeError "'NoneType' object is not iterable")).
Proof.
  induction slots as [|slot rest IH]; intros slot_idx all_shots w Hall.
  - discriminate Hall.
  - cbn [map all_some] in Hall. cbn [collect_slots].
    destruct (safe_get_attr (Some slot) Slot.shots []) as [shots|]; msimpl.
    + destruct (all_some _) as [lists|] eqn:Hrest; [discriminate|].
      destruct (collect_versions_run slot_idx shots 0 all_shots w)
        as (w1 & -> & _).
      apply IH. reflexivity.
    + eexists. reflexivity.
Qed.

(** A construct whose slots are [None], or one of whose slots has [None]
    for shots, is not an empty timeline for [get_all_shots]: the [TypeError]
    of the iteration is not caught and leaves the function. *)
Theorem get_all_shots_malformed (w : World St) s' construct :
  Api.constructs_current api "ALL" (server w) = (s', Ok construct) ->
  slot_lists construct = None ->
  exists w',
    get_all_shots api w
    = (w', Raise (TypeError "'NoneType' object is not iterable")).
Proof.
  intros Hcall Hlists. unfold slot_lists in Hlists.
  unfold get_all_shots. msimpl. rewrite Hcall. msimpl.
  destruct (safe_get_attr construct Construct.slots []) as [slots|]; msimpl.
  - match goal with |- context [collect_slots 0 slots [] ?w1] =>
      destruct (collect_slots_none slots 0 [] w1 Hlists) as (w2 & ->)
    end.
    eexists. reflexivity.
  - eexists. reflexivity.
Qed.

(** A missing construct, or one without a [slots] attribute, has no
    shots. *)
Theorem get_all_shots_without_slots (w : World St) s' construct :
  Api.constructs_current api "ALL" (server w) = (s', Ok construct) ->
  construct = None
  \/ (exists c, construct = Some c /\ Construct.slots c = Missing) ->
  exists w', get_all_shots api w = (w', Ok []).
Proof.
  intros Hcall Hc.
  destruct (get_all_shots_run api w (lists := []) Hcall) as (w' & Hrun & _).
  - destruct Hc as [-> | (c & -> & Hslots)]; unfold slot_lists; cbn;
      [|rewrite Hslots]; reflexivity.
  - exists w'. exact Hrun.
Qed.

(** The render queue as [get_render_queue] returns it: the items of the
    client when there are some, the empty list when the client has none,
    answers [None] or fails with an [ApiException]; any other exception
    leaves the function.  It makes one call and writes nothing. *)
Theorem get_render_queue_result (w : World St) s' reply :
  Api.render_queue api (server w) = (s', reply) ->
  exists w',
    get_render_queue api w
    = (w', match reply with
           | Ok (Some (item :: items)) => Ok (item :: items)
           | Ok (Some []) | Ok None => Ok []
           | Raise (ApiError _) => Ok []
           | Raise e => Raise e
           end)
    /\ calls_once w w' Api.get_application_render_queue (outcome_of reply).
Proof.
  intros Hcall. unfold get_render_queue. msimpl. rewrite Hcall.
  destruct reply as [[[|item items]|]|e]; msimpl.
  - eexists. split; [reflexivity | solve_effect].
  - match goal with |- context [for_each ?xs ?body ?w1] =>
      destruct (@for_each_quiet _ _ body xs) with (w := w1)
        as (w2 & -> & HS & HT & HF & HC & HD)
    end.
    { intros x w0. msimpl. eexists; split; [reflexivity | solve_effect]. }
    cbn in HS, HT, HF, HC, HD. rewrite app_nil_r in HT, HF.
    exists w2. split; [reflexivity|].
    unfold calls_once, effect. rewrite HT, HF, HC, HD, ?app_nil_r. auto.
  - eexists. split; [reflexivity | solve_effect].
  - destruct e; msimpl; (eexists; split; [reflexivity | solve_effect]).
Qed.

(** [list_projects] on a reply within the client's contract: the projects
    of the client in their order, and the empty list on every
    [ApiException]. *)
Theorem list_projects_result (w : World St) s' reply :
  Api.projects api (server w) = (s', reply) ->
  keeps_contract reply ->
  exists w',
    list_projects api w
    = (w', match reply with
           | Ok (Some projects) => Ok projects
           | Ok None => Raise (TypeError "'NoneType' object is not iterable")
           | Raise _ => Ok []
           end)
    /\ calls_once w w' Api.get_projects (outcome_of reply).
Proof.
  intros Hcall Hc. unfold list_projects. msimpl. rewrite Hcall.
  destruct reply as [[projects|]|[e| | | | | |]]; cbn in Hc; try contradiction;
    msimpl.
  - match goal with |- context [for_each ?xs ?body ?w1] =>
      destruct (@for_each_quiet _ _ body xs) with (w := w1)
        as (w2 & -> & HS & HT & HF & HC & HD)
    end.
    { intros x w0. msimpl. eexists; split; [reflexivity | solve_effect]. }
    cbn in HS, HT, HF, HC, HD. rewrite app_nil_r in HT, HF.
    exists w2. split; [reflexivity|].
    unfold calls_once, effect. rewrite HT, HF, HC, HD, ?app_nil_r. auto.
  - eexists. split; [reflexivity | solve_effect].
  - unfold loggable in Hc.
    destruct (ApiException.body e) as [[| |]|]; try contradiction;
      cbn [body_truthy]; msimpl;
      (eexists; split; [reflexivity | solve_effect]).
Qed.

(** On success [get_groups] returns the groups of the client as they are,
    after one call at level [ALL] when detailed and at the empty level
    otherwise. *)
Theorem get_groups_returns_listing (detailed : bool) (w : World St) s' groups :
  Api.groups api (if detailed then "ALL" else "") (server w)
  = (s', Ok (Some groups)) ->
  exists w',
    get_groups api detailed w = (w', Ok groups)
    /\ calls_once w w' (Api.get_groups (if detailed then "ALL" else ""))
         Returned.
Proof.
  intros Hcall. unfold get_groups. msimpl. rewrite Hcall. msimpl.
  match goal with |- context [for_each groups ?body ?w1] =>
    destruct (@for_each_quiet _ _ body groups) with (w := w1)
      as (w2 & -> & HS & HT & HF & HC & HD)
  end.
  { intros x w0. msimpl. repeat split_match;
      (eexists; split; [reflexivity | solve_effect]). }
  cbn in HS, HT, HF, HC, HD. rewrite app_nil_r in HT, HF.
  exists w2. split; [reflexivity|].
  unfold calls_once, effect. rewrite HT, HF, HC, HD, ?app_nil_r. auto.
Qed.

(** On an [ApiException] of the listing, [get_groups] returns the empty
    list exactly when the error carries a JSON body; in no case does the
    [ApiException] itself leave the function. *)
Theorem get_groups_fails_open_iff (detailed : bool) (w : World St) s' e :
  Api.groups api (if detailed then "ALL" else "") (server w)
  = (s', Raise (ApiError e)) ->
  exists w' r,
    get_groups api detailed w = (w', r)
    /\ (r = Ok [] <->
        exists raw document,
          ApiException.body e = Some (Structured raw document))
    /\ (forall a, r <> Raise (ApiError a)).
Proof.
  intros Hcall. unfold get_groups. msimpl. rewrite Hcall. msimpl.
  destruct (ApiException.body e) as [[|raw document|raw]|]; msimpl;
    (eexists; eexists; split; [reflexivity|]; split;
     [split; [intros H; discriminate H || eauto
             | intros (? & ? & H); discriminate H || reflexivity]
     | intros a H; discriminate H]).
Qed.

(** [select_group] hands on what the client answers, response or
    exception, and tracks the group: [current_group] becomes the selected
    group on success and keeps its value on failure. *)
Theorem select_group_tracks_current group_uuid (w : World St) s' reply :
  Api.group_select api group_uuid "ALL" (server w) = (s', reply) ->
  exists w',
    select_group api group_uuid w = (w', reply)
    /\ calls_once w w' (Api.select_group group_uuid "ALL") (outcome_of reply)
    /\ current_group w'
       = match reply with
         | Ok group => Some group
         | Raise _ => current_group w
         end
    /\ current_construct w' = current_construct w.
Proof.
  intros Hcall. unfold select_group. msimpl. rewrite Hcall.
  destruct reply as [group|[]]; msimpl;
    (eexists; split; [reflexivity|]; split; [solve_effect|];
     split; reflexivity).
Qed.

(** [get_current_construct] hands on what the client answers and tracks
    the construct: [current_construct] becomes the fetched construct on
    success and keeps its value on failure. *)
Theorem get_current_construct_tracks_current (w : World St) s' reply :
  Api.constructs_current api "ALL" (server w) = (s', reply) ->
  exists w',
    get_current_construct api w = (w', reply)
    /\ calls_once w w' (Api.get_constructs_current "ALL") (outcome_of reply)
    /\ current_construct w'
       = match reply with
         | Ok construct => Some construct
         | Raise _ => current_construct w
         end
    /\ current_group w' = current_group w.
Proof.
  intros Hcall. unfold get_current_construct. msimpl. rewrite Hcall.
  destruct reply as [construct|[]]; msimpl; repeat (split_match; msimpl);
    (eexists; split; [reflexivity|]; split; [solve_effect|];
     split; reflexivity).
Qed.

(** [enter_player] enters the timeline with the given identifier when one
    is given and is not empty, and the current timeline otherwise; it makes
    that one call and hands on its failure. *)
Theorem enter_player_target construct_uuid (w : World St) :
  exists w' r o,
    enter_player api construct_uuid w = (w', r)
    /\ calls_once w w'
         (match construct_uuid with
          | Some uuid =>
              if truthy uuid
              then Api.do_application_player_enter_timeline uuid
              else Api.do_application_player_enter_timeline_current
          | None => Api.do_application_player_enter_timeline_current
          end) o
    /\ r = match o with
           | Returned => Ok tt
           | Failed e => Raise e
           end.
Proof.
  unfold enter_player.
  destruct construct_uuid as [uuid|]; [destruct (truthy uuid)|]; msimpl;
    match goal with |- context [?f (server w)] =>
      destruct (f (server w)) as [s1 [[]|[]]]
    end; msimpl;
    (eexists; eexists; eexists; split; [reflexivity|];
     split; [solve_effect | reflexivity]).
Qed.


(** [get_system_info] on a reply within the client's contract hands on the
    system properties or the [ApiException] of the client. *)
Theorem get_system_info_result (w : World St) s' reply :
  Api.system_properties api (server w) = (s', reply) ->
  keeps_contract reply ->
  exists w',
    get_system_info api w = (w', reply)
    /\ calls_once w w' Api.get_system_properties (outcome_of reply).
Proof.
  intros Hcall Hc. unfold get_system_info. msimpl. rewrite Hcall.
  destruct reply as [system|[e| | | | | |]]; cbn in Hc; try contradiction;
    msimpl.
  - eexists. split; [reflexivity | solve_effect].
  - unfold loggable in Hc.
    destruct (ApiException.body e) as [[| |]|]; try contradiction;
      cbn [body_truthy]; msimpl;
      (eexists; split; [reflexivity | solve_effect]).
Qed.

End OperationResults.

(** ** Further properties of the workflow *)

Section WorkflowRuns.

Variable St : Type.
Variable api : Api.Client St.

Ltac step_print H :=
  let w1 := fresh "w" in
  let Hp := fresh "Hp" in
  let Hq := fresh "Hq" in
  let e := fresh "e" in
  apply bind_inv in H as [(w1 & [] & Hp & H) | (e & Hp & _)];
  [ apply print_inv in Hp as (_ & Hq)
  | apply print_inv in Hp as (Hp & _); discriminate Hp ].

(** The thumbnail loop writes at most one file for each request. *)
Lemma generate_thumbnails_count shots :
  forall i thumbnails (w w' : World St) r,
  generate_thumbnails api i shots thumbnails w = (w', r) ->
  exists evs fs,
    effect w w' evs fs (server w') /\ List.length fs <= List.length evs.
Proof.
  induction shots as [|shot rest IH]; intros i thumbnails w w' r H.
  - cbn in H. injection H as <- <-. exists [], [].
    split; [solve_effect | cbn; lia].
  - cbn [generate_thumbnails] in H. step_print H.
    apply bind_inv in H as [(w2 & result & Hg & H) | (e & Hg & ->)];
      apply generate_thumbnail_inv in Hg as (o & fs1 & He1 & Hfs1 & _).
    + apply bind_inv in H as [(w3 & thumbnails' & Hm & H) | (e & Hm & _)].
      2:{ destruct result as [path|]; [destruct (truthy path)|]; msimpl_in Hm;
          discriminate Hm. }
      assert (Hq3 : quiet w2 w3).
      { destruct result as [path|]; [destruct (truthy path)|]; msimpl_in Hm;
          injection Hm as <- _; solve_effect. }
      apply IH in H as (evs & fs & He & Hle).
      pose proof (effect_trans (quiet_effect Hq He1) (quiet_effect Hq3 He))
        as Heff.
      eexists; eexists. split; [exact Heff|].
      rewrite length_app. cbn [List.length app].
      destruct Hfs1 as [-> | (d & ->)]; cbn; lia.
    + eexists; eexists. split; [exact (quiet_effect Hq He1)|].
      destruct Hfs1 as [-> | (d & ->)]; cbn; lia.
Qed.

(** Every run of [review]. *)
Lemma review_run project_name target_group shots (w w' : World St) r :
  review api project_name target_group shots w = (w', r) ->
  exists snaps tail fs,
    effect w w' (snaps ++ tail) fs (server w')
    /\ Forall (fun e => is_snapshot (ev_call e) = true) snaps
    /\ List.length snaps <= 5
    /\ List.length fs <= List.length snaps
    /\ review_tail tail r.
Proof.
  intros H. unfold review in H. destruct shots as [|shot0 shots0].
  { step_print H. msimpl_in H. injection H as <- <-.
    exists [], [], []. split; [chain_effect|]. cbn.
    repeat split; auto; try lia. constructor. discriminate. }
  step_print H.
  assert (Hthumbs : forall w2 r2,
            generate_thumbnails api 0 (firstn 5 (shot0 :: shots0)) [] w0
            = (w2, r2) ->
            exists snaps fs,
              effect w0 w2 snaps fs (server w2)
              /\ Forall (fun e => is_snapshot (ev_call e) = true) snaps
              /\ List.length snaps <= 5
              /\ List.length fs <= List.length snaps).
  { intros w2 r2 Hg. pose proof Hg as Hg'.
    apply generate_thumbnails_inv in Hg
      as (snaps & fs & He & Hcalls & Hlen & _).
    apply generate_thumbnails_count in Hg' as (evs2 & fs2 & He2 & Hle).
    destruct (new_events_effect He) as (E1 & F1).
    destruct (new_events_effect He2) as (E2 & F2).
    rewrite E1 in E2. rewrite F1 in F2. subst evs2 fs2.
    exists snaps, fs. split; [exact He|].
    split; [exact (snapshots_later _ _ Hcalls)|].
    rewrite length_firstn in Hlen. split; [lia | exact Hle]. }
  apply bind_inv in H as [(w2 & thumbnails & Hg & H) | (e & Hg & ->)];
    apply Hthumbs in Hg as (snaps & fs & He & Hsnaps & Hfive & Hle).
  2:{ exists snaps, [], fs. rewrite app_nil_r.
      split; [chain_effect|]. repeat split; auto.
      constructor. discriminate. }
  apply bind_inv in H as [(w3 & queue & Hqu & H) | (e & Hqu & ->)];
    apply get_render_queue_inv in Hqu as (oq & Hqu & Hoq).
  2:{ rewrite (Hoq e eq_refl) in Hqu.
      exists snaps, [ev Api.get_application_render_queue (Failed e)], fs.
      split; [unfold ev; chain_effect|].
      repeat split; auto. constructor. }
  step_print H.
  apply bind_inv in H as [(w5 & [] & Hpl & H) | (e & Hpl & ->)];
    apply enter_player_inv in Hpl
      as (op & Hpl & [(-> & Hr) | (e' & -> & Hr)]);
    try discriminate Hr.
  2:{ injection Hr as <-.
      exists snaps,
        [ev Api.get_application_render_queue oq;
         ev Api.do_application_player_enter_timeline_current (Failed e)], fs.
      split; [unfold ev; chain_effect|].
      repeat split; auto. constructor. }
  apply bind_inv in H as [(w6 & [] & Hpm & H) | (e & Hpm & ->)];
    apply set_playback_mode_inv in Hpm
      as (om & Hpm & [(-> & Hr') | (e' & -> & Hr')]);
    try discriminate Hr'.
  2:{ injection Hr' as <-.
      exists snaps,
        [ev Api.get_application_render_queue oq;
         ev Api.do_application_player_enter_timeline_current Returned;
         ev (Api.set_application_player_playmode review_playmode) (Failed e)],
        fs.
      split; [unfold ev; chain_effect|].
      repeat split; auto. constructor. }
  do 7 step_print H. msimpl_in H. injection H as <- <-.
  exists snaps,
    [ev Api.get_application_render_queue oq;
     ev Api.do_application_player_enter_timeline_current Returned;
     ev (Api.set_application_player_playmode review_playmode) Returned], fs.
  split; [unfold ev; chain_effect|].
  repeat split; auto. constructor.
Qed.

Lemma opening_before_thumbnails (c : Api.call) :
  opening_call c = true -> before_thumbnails c = true.
Proof.
  destruct c; cbn; intros H; first [reflexivity | discriminate H].
Qed.

(** Every run of the workflow from the groups on. *)
Lemma browse_groups_run project_name target_group_name groups
    (w w' : World St) r :
  browse_groups api project_name target_group_name groups w = (w', r) ->
  exists evs fs,
    effect w w' evs fs (server w') /\ workflow_run evs fs r.
Proof.
  intros H. unfold browse_groups in H.
  assert (Hnone : forall w0, quiet w w0 ->
            exists evs fs,
              effect w w0 evs fs (server w0)
              /\ workflow_run evs fs (Ok false)).
  { intros w0 Hq. exists [], []. split; [chain_effect|].
    exists [], [], []. cbn.
    repeat split; auto; try lia; try (constructor; discriminate). }
  destruct groups as [|g0 gs0].
  { step_print H. msimpl_in H. injection H as <- <-. auto. }
  apply bind_inv in H as [(w1 & target & Hc & H) | (e & Hc & ->)];
    apply choose_target_inv in Hc as (-> & Hr);
    try discriminate Hr; try discriminate.
  injection Hr as ->.
  destruct (chosen target_group_name (g0 :: gs0)) as [target_group|].
  2:{ step_print H. msimpl_in H. injection H as <- <-. auto. }
  apply bind_inv in H as [(w2 & shots & Hc & H) | (e & Hc & ->)];
    apply collect_shots_of_inv in Hc as (o & rest & Hc & Hrest & _).
  - apply review_run in H as (snaps & tail & fs & He & Hsnaps & Hfive & Hle & Ht).
    exists (ev (Api.select_group (Group.uuid target_group) "ALL") o
            :: rest ++ snaps ++ tail), fs.
    split; [unfold ev in *; chain_effect|].
    exists (ev (Api.select_group (Group.uuid target_group) "ALL") o :: rest),
      snaps, tail.
    split; [reflexivity|]. split; [|auto].
    constructor; [reflexivity|].
    eapply Forall_impl; [|exact Hrest]. intros a ->. reflexivity.
  - exists (ev (Api.select_group (Group.uuid target_group) "ALL") o :: rest), [].
    split; [exact Hc|].
    exists (ev (Api.select_group (Group.uuid target_group) "ALL") o :: rest),
      [], [].
    rewrite app_nil_r. split; [reflexivity|]. split.
    { constructor; [reflexivity|].
      eapply Forall_impl; [|exact Hrest]. intros a ->. reflexivity. }
    cbn. repeat split; auto; try lia; try (constructor; discriminate).
Qed.

(** Every run of the workflow, successful or not. *)
Lemma browse_project_facts project_name target_group_name
    (w w' : World St) r :
  browse_project api project_name target_group_name w = (w', r) ->
  exists r1,
    r = Ok (match r1 with Ok b => b | Raise _ => false end)
    /\ workflow_run (new_events w w') (new_files w w') r1.
Proof.
  intros H. unfold browse_project in H.
  apply bind_inv in H as [(w0 & [] & Hb & H) | (e & Hb & _)];
    apply banner_inv in Hb as (Hb & Hq0); [|discriminate Hb].
  apply report_failure_inv in H as (w1 & r1 & H & Hq1 & ->).
  exists r1. split; [reflexivity|]. unfold browse_steps in H.
  apply bind_inv in H as [(w3 & groups & Hl & H) | (e & Hl & ->)];
    apply list_groups_of_inv in Hl as (opening & Ho & Hopen & _).
  - apply browse_groups_run in H
      as (after & fs & Ha & before & snaps & tail & -> & Hbefore & Hrun).
    assert (He : effect w w' (opening ++ before ++ snaps ++ tail) fs
                   (server w')) by chain_effect.
    apply new_events_effect in He as (-> & ->).
    exists (opening ++ before)%list, snaps, tail.
    rewrite <- app_assoc. split; [reflexivity|]. split; [|exact Hrun].
    apply Forall_app. split; [|exact Hbefore].
    eapply Forall_impl; [|exact Hopen]. intros a.
    apply opening_before_thumbnails.
  - assert (He : effect w w' opening [] (server w')) by chain_effect.
    apply new_events_effect in He as (-> & ->).
    exists opening, [], []. rewrite app_nil_r. split; [reflexivity|]. split.
    { eapply Forall_impl; [|exact Hopen]. intros a.
      apply opening_before_thumbnails. }
    cbn. repeat split; auto; try lia; try (constructor; discriminate).
Qed.

Lemma before_not_snapshot (c : Api.call) :
  before_thumbnails c = true -> is_snapshot c = false.
Proof.
  destruct c; cbn; intros H; first [reflexivity | discriminate H].
Qed.

(** In every run of the workflow, whatever its outcome, at most five
    thumbnails are requested and at most one file is written for each
    request. *)
Theorem thumbnail_bounds project_name target_group_name (w w' : World St) r :
  browse_project api project_name target_group_name w = (w', r) ->
  List.length (thumbnail_requests (new_events w w')) <= 5
  /\ List.length (new_files w w')
     <= List.length (thumbnail_requests (new_events w w')).
Proof.
  intros H.
  apply browse_project_facts in H
    as (r1 & _ & before & snaps & tail & -> & Hbefore & Hsnaps & Hfive & Hle
        & Htail).
  destruct (review_tail_later Htail) as (_ & Hts).
  assert (Hreq : thumbnail_requests (before ++ snaps ++ tail)
                 = map ev_call snaps).
  { unfold thumbnail_requests. rewrite !filter_app.
    rewrite (filter_none (fun e => is_snapshot (ev_call e)) (l := before)),
            (filter_none (fun e => is_snapshot (ev_call e)) (l := tail)),
            (filter_all (fun e => is_snapshot (ev_call e)) (l := snaps)).
    - cbn. rewrite app_nil_r. reflexivity.
    - exact Hsnaps.
    - exact Hts.
    - eapply Forall_impl; [|exact Hbefore]. intros a.
      apply before_not_snapshot. }
  rewrite Hreq, length_map. split; assumption.
Qed.

(** The playback mode is pushed at most at the very end of a run, right
    after the render queue was read and the player entered, with the
    review configuration; the run succeeds exactly when that push
    returned. *)
Theorem playback_pushed_last project_name target_group_name
    (w w' : World St) r body o :
  browse_project api project_name target_group_name w = (w', r) ->
  In (ev (Api.set_application_player_playmode body) o) (new_events w w') ->
  body = review_playmode
  /\ (exists before queue_outcome,
        new_events w w'
        = (before
           ++ [ev Api.get_application_render_queue queue_outcome;
               ev Api.do_application_player_enter_timeline_current Returned;
               ev (Api.set_application_player_playmode review_playmode) o])%list)
  /\ (r = Ok true <-> o = Returned).
Proof.
  intros H Hin.
  apply browse_project_facts in H
    as (r1 & -> & before & snaps & tail & Hev & Hbefore & Hsnaps & _ & _
        & Htail).
  rewrite Hev in *. clear Hev.
  apply in_app_iff in Hin as [Hin|Hin].
  { rewrite Forall_forall in Hbefore. apply Hbefore in Hin. discriminate Hin. }
  apply in_app_iff in Hin as [Hin|Hin].
  { rewrite Forall_forall in Hsnaps. apply Hsnaps in Hin. discriminate Hin. }
  inversion Htail as [r' Hr'|e|oq e|oq e|oq]; subst; cbn in Hin;
    repeat (destruct Hin as [Hin|Hin]; [try discriminate Hin|]);
    try contradiction; injection Hin as <- <-.
  - split; [reflexivity|]. split.
    + exists (before ++ snaps)%list, oq. rewrite <- app_assoc. reflexivity.
    + split; intros Habs; discriminate Habs.
  - split; [reflexivity|]. split.
    + exists (before ++ snaps)%list, oq. rewrite <- app_assoc. reflexivity.
    + split; reflexivity.
Qed.

(** A failure to enter the player ends the run: it is the last call, the
    playback mode is not pushed, and the workflow returns [False]. *)
Theorem player_failure_aborts project_name target_group_name
    (w w' : World St) r e :
  browse_project api project_name target_group_name w = (w', r) ->
  In (ev Api.do_application_player_enter_timeline_current (Failed e))
     (new_events w w') ->
  r = Ok false
  /\ (exists before,
        new_events w w'
        = (before
           ++ [ev Api.do_application_player_enter_timeline_current
                  (Failed e)])%list)
  /\ (forall body o,
        ~ In (ev (Api.set_application_player_playmode body) o)
             (new_events w w')).
Proof.
  intros H Hin.
  apply browse_project_facts in H
    as (r1 & -> & before & snaps & tail & Hev & Hbefore & Hsnaps & _ & _
        & Htail).
  rewrite Hev in *. clear Hev.
  rewrite Forall_forall in Hbefore, Hsnaps.
  apply in_app_iff in Hin as [Hin|Hin].
  { apply Hbefore in Hin. discriminate Hin. }
  apply in_app_iff in Hin as [Hin|Hin].
  { apply Hsnaps in Hin. discriminate Hin. }
  inversion Htail as [r' Hr'|e0|oq e0|oq e0|oq]; subst; cbn in Hin;
    repeat (destruct Hin as [Hin|Hin]; [try discriminate Hin|]);
    try contradiction.
  injection Hin as <-. split; [reflexivity|]. split.
  - exists (before ++ snaps ++ [ev Api.get_application_render_queue oq])%list.
    rewrite <- !app_assoc. reflexivity.
  - intros body o Hpm.
    apply in_app_iff in Hpm as [Hpm|Hpm].
    { apply Hbefore in Hpm. discriminate Hpm. }
    apply in_app_iff in Hpm as [Hpm|Hpm].
    { apply Hsnaps in Hpm. discriminate Hpm. }
    cbn in Hpm.
    repeat (destruct Hpm as [Hpm|Hpm]; [discriminate Hpm|]).
    contradiction.
Qed.

(** A project without groups ends the workflow after step 3: it returns
    [False], makes no further call and writes no file. *)
Theorem no_groups_aborts project_name target_group_name (w w3 : World St) :
  list_groups_of api project_name (fst (banner w)) = (w3, Ok []) ->
  exists w',
    browse_project api project_name target_group_name w = (w', Ok false)
    /\ new_events w3 w' = [] /\ new_files w w' = [].
Proof.
  intros Hl.
  rewrite (browse_project_from_groups api project_name target_group_name _ Hl).
  destruct (banner w) as [w0 r0] eqn:Hb.
  apply banner_inv in Hb as (_ & Hq0). cbn [fst] in Hl.
  apply list_groups_of_inv in Hl as (opening & Ho & _).
  unfold report_failure, browse_groups. msimpl.
  eexists. split; [reflexivity|]. unfold new_events, new_files.
  cbn [trace files]. split; [apply skipn_all|].
  destruct Hq0 as (_ & _ & HF0 & _). destruct Ho as (_ & _ & HF & _).
  rewrite HF, HF0, !app_nil_r. apply skipn_all.
Qed.

(** A timeline without shots ends the workflow after step 5: it returns
    [False] without raising, requests no thumbnail, does not touch the render
    queue or the player, and writes no file. *)
Theorem no_shots_aborts project_name target_group_name
    (w w3 w5 : World St) groups target_group :
  list_groups_of api project_name (fst (banner w)) = (w3, Ok groups) ->
  groups <> [] ->
  choose_target target_group_name groups w3 = (w3, Ok (Some target_group)) ->
  collect_shots_of api target_group w3 = (w5, Ok []) ->
  exists w',
    browse_project api project_name target_group_name w = (w', Ok false)
    /\ new_events w5 w' = [] /\ new_files w w' = [].
Proof.
  intros Hl Hne Hc Hs.
  rewrite (browse_project_from_groups api project_name target_group_name _ Hl).
  destruct groups as [|g0 gs0]; [contradiction|].
  destruct (banner w) as [w0 r0] eqn:Hb.
  apply banner_inv in Hb as (_ & Hq0). cbn [fst] in Hl.
  apply list_groups_of_inv in Hl as (opening & Ho & _).
  unfold report_failure, except_api_any, browse_groups, bind.
  rewrite Hc, Hs.
  apply collect_shots_of_inv in Hs as (o & rest & Hs & _).
  unfold review. msimpl.
  eexists. split; [reflexivity|]. unfold new_events, new_files.
  cbn [trace files]. split; [apply skipn_all|].
  destruct Hq0 as (_ & _ & HF0 & _). destruct Ho as (_ & _ & HF & _).
  destruct Hs as (_ & _ & HF5 & _).
  rewrite HF5, HF, HF0, !app_nil_r. apply skipn_all.
Qed.

Lemma get_system_info_shape (w w' : World St) r :
  get_system_info api w = (w', r) ->
  exists o,
    calls_once w w' Api.get_system_properties o
    /\ ((o = Returned /\ exists a, r = Ok a)
        \/ (o <> Returned /\ exists e, r = Raise e)).
Proof.
  unfold get_system_info, calls_once. run_op;
    (eexists; split; [solve_effect|];
     first [left; split; [reflexivity | eexists; reflexivity]
           | right; split; [discriminate | eexists; reflexivity]]).
Qed.

(** The calls of [enter_project], by how far it got. *)
Lemma enter_project_shape project_name (w w' : World St) r :
  enter_project api project_name w = (w', r) ->
  exists evs,
    effect w w' evs [] (server w')
    /\ forall c e,
         required_opening c = true -> In (ev c (Failed e)) evs ->
         (exists e', r = Raise e')
         /\ exists before, evs = (before ++ [ev c (Failed e)])%list.
Proof.
  unfold enter_project. run_op;
    (eexists; split; [solve_effect|];
     intros c e' Hc Hin; cbn in Hin;
     repeat (destruct Hin as [Hin|Hin];
             [first [discriminate Hin
                    | injection Hin as <- <-;
                      first [discriminate Hc
                            | split; [eexists; reflexivity|];
                              first [exists []; reflexivity
                                    | eexists [_]; reflexivity
                                    | eexists [_; _]; reflexivity]]]|]);
     contradiction).
Qed.

Lemma required_not_later (c : Api.call) :
  required_opening c = true ->
  later_call c = false /\ is_select_group c = false.
Proof.
  destruct c; cbn; intros H; first [split; reflexivity | discriminate H].
Qed.

(** Steps 1 and 2 are fatal: when the system check, the entry into the
    project or the fetch of the current project fails, with any exception,
    that call is the last of the run and the workflow returns [False]. *)
Theorem opening_failure_aborts project_name target_group_name
    (w w' : World St) r c e :
  browse_project api project_name target_group_name w = (w', r) ->
  required_opening c = true ->
  In (ev c (Failed e)) (new_events w w') ->
  r = Ok false
  /\ exists before, new_events w w' = (before ++ [ev c (Failed e)])%list.
Proof.
  intros H Hc Hin. unfold browse_project in H.
  apply bind_inv in H as [(w0 & [] & Hb & H) | (e0 & Hb & _)];
    apply banner_inv in Hb as (Hb & Hq0); [|discriminate Hb].
  apply report_failure_inv in H as (w1 & r1 & H & Hq1 & ->).
  unfold browse_steps in H.
  assert (Hopening : forall w3 r3,
            list_groups_of api project_name w0 = (w3, r3) ->
            exists opening,
              effect w0 w3 opening [] (server w3)
              /\ (In (ev c (Failed e)) opening ->
                  (exists e', r3 = Raise e')
                  /\ exists before,
                       opening = (before ++ [ev c (Failed e)])%list)).
  { intros w3 r3 Hl. unfold list_groups_of in Hl.
    apply bind_inv in Hl as [(wa & system & Hs & Hl) | (ea & Hs & ->)];
      apply get_system_info_shape in Hs
        as (os & Hs & [(-> & a & Ha) | (Hos & e1 & He1)]);
      try discriminate Ha; try discriminate He1.
    - apply bind_inv in Hl as [(wb & current & Hp & Hl) | (eb & Hp & ->)];
        apply enter_project_shape in Hp as (evs & Hp & Hevs).
      + apply get_groups_inv in Hl as (og & Hg & _).
        exists (ev Api.get_system_properties Returned
                :: evs ++ [ev (Api.get_groups "ALL") og]).
        split; [unfold ev; chain_effect|].
        intros [Hi|Hi]; [discriminate Hi|].
        apply in_app_iff in Hi as [Hi|[Hi|[]]].
        * destruct (Hevs c e Hc Hi) as ((e' & He') & _). discriminate He'.
        * injection Hi as <- _. discriminate Hc.
      + exists (ev Api.get_system_properties Returned :: evs).
        split; [unfold ev; chain_effect|].
        intros [Hi|Hi]; [discriminate Hi|].
        destruct (Hevs c e Hc Hi) as (Hr & before & ->).
        split; [eauto|].
        exists (ev Api.get_system_properties Returned :: before). reflexivity.
    - exists [ev Api.get_system_properties os].
      split; [exact Hs|].
      intros [Hi|[]]. injection Hi as <- ->.
      split; [eauto | exists []; reflexivity]. }
  apply bind_inv in H as [(w3 & groups & Hl & H) | (e3 & Hl & ->)];
    apply Hopening in Hl as (opening & Ho & Hfail).
  - apply browse_groups_inv in H as (after & fs & Ha & _ & Hshape).
    assert (He : effect w w' (opening ++ after) fs (server w'))
      by chain_effect.
    apply new_events_effect in He as (Hev & _). rewrite Hev in *. clear Hev.
    apply in_app_iff in Hin as [Hin|Hin].
    { destruct (Hfail Hin) as ((e' & He') & _). discriminate He'. }
    destruct (required_not_later _ Hc) as (Hnl & Hns).
    assert (Hafter : after = []
                     \/ exists target_group, selection_run target_group after r1).
    { destruct groups as [|g gs]; [left; tauto|].
      destruct (chosen target_group_name (g :: gs)); [right; eauto|].
      left. tauto. }
    destruct Hafter as [-> | (g & o & later & -> & Hlater & _)];
      [destruct Hin|].
    destruct Hin as [Hin|Hin].
    + injection Hin as <- _. discriminate Hc.
    + rewrite Forall_forall in Hlater. apply Hlater in Hin. cbn in Hin.
      rewrite Hnl in Hin. discriminate Hin.
  - assert (He : effect w w' opening [] (server w')) by chain_effect.
    apply new_events_effect in He as (Hev & _). rewrite Hev in *. clear Hev.
    destruct (Hfail Hin) as (_ & before & ->).
    split; [reflexivity | exists before; reflexivity].
Qed.

Lemma list_projects_inv (w w' : World St) r :
  list_projects api w = (w', r) ->
  exists o, calls_once w w' Api.get_projects o.
Proof.
  unfold list_projects. msimpl.
  destruct (Api.projects api (server w)) as [s1 [[projects|]|e]]; msimpl.
  - match goal with |- context [for_each ?xs ?body ?w1] =>
      destruct (@for_each_quiet _ _ body xs) with (w := w1)
        as (w2 & -> & HS & HT & HF & HC & HD)
    end.
    { intros x w0. msimpl. eexists; split; [reflexivity | solve_effect]. }
    cbn in HS, HT, HF, HC, HD. rewrite app_nil_r in HT, HF.
    intros H; injection H as <- <-. eexists.
    unfold calls_once, effect. rewrite HT, HF, HC, HD, ?app_nil_r. auto.
  - intros H; injection H as <- <-. eexists. solve_effect.
  - destruct e; msimpl; repeat (split_match; msimpl);
      intros H; injection H as <- <-; eexists; solve_effect.
Qed.

(** The debug section after a failed workflow: it never raises, writes no
    file, and calls the system check and then, when the check returned, the
    list of projects. *)
Lemma debug_section_run (w w' : World St) r :
  except_exception
    (get_system_info api ;;
     projects <- list_projects api ;;
     match projects with
     | [] => ret tt
     | _ :: _ =>
         let names := map Project.name projects in
         print (nl ++ "Available projects: " ++ repr_names names)
     end)
    (fun e => print ("Debug failed: " ++ str_exn e)) w = (w', r) ->
  r = Ok tt
  /\ exists evs, effect w w' evs [] (server w') /\ debug_calls evs.
Proof.
  unfold except_exception.
  match goal with |- context [match ?m w with _ => _ end] =>
    destruct (m w) as [w1 r1] eqn:H
  end.
  apply bind_inv in H as [(wa & system & Hs & H) | (ea & Hs & ->)];
    apply get_system_info_shape in Hs
      as (os & Hs & [(-> & a & Ha) | (Hos & e1 & He1)]);
    try discriminate Ha; try discriminate He1.
  - assert (Hdone : exists o, calls_once wa w1 Api.get_projects o
                              /\ (r1 = Ok tt \/ exists e, r1 = Raise e)).
    { apply bind_inv in H as [(wb & projects & Hp & H) | (eb & Hp & ->)];
        apply list_projects_inv in Hp as (o & Hp); exists o.
      - destruct projects as [|p ps]; msimpl_in H; injection H as <- <-;
          (split; [|left; reflexivity]);
          unfold calls_once in *; chain_effect.
      - split; [exact Hp | right; eauto]. }
    destruct Hdone as (o & Hp & [-> | (e & ->)]).
    + intros H'; injection H' as <- <-. split; [reflexivity|].
      exists [ev Api.get_system_properties Returned; ev Api.get_projects o].
      split; [unfold ev; chain_effect | constructor].
    + msimpl. intros H'; injection H' as <- <-. split; [reflexivity|].
      exists [ev Api.get_system_properties Returned; ev Api.get_projects o].
      split; [unfold ev; chain_effect | constructor].
  - msimpl. intros H'; injection H' as <- <-. split; [reflexivity|].
    exists [ev Api.get_system_properties os].
    split; [unfold ev; chain_effect | constructor; exact Hos].
Qed.

(** The command line never raises.  Its exit status is 0 when the workflow
    returned [True] and 1 otherwise; after a successful workflow it makes no
    further call, after a failed one it runs the debug section: the system
    check, then the list of projects when the check returned, whose failures
    are caught.  The debug section writes no file. *)
Theorem main_exit_status (w : World St) :
  exists w1 w' success,
    browse_project api "Project" None (fst (new_explorer w))
    = (w1, Ok success)
    /\ main api w = (w', Ok (if success then 0 else 1))
    /\ (if success
        then new_events w1 w' = []
        else debug_calls (new_events w1 w'))
    /\ new_files w1 w' = [].
Proof.
  destruct (browse_project_run api "Project" None (fst (new_explorer w)))
    as (w1 & success & Hrun & _).
  exists w1. unfold main, bind at 1. cbn [new_explorer fst] in *.
  unfold bind at 1. rewrite Hrun. destruct success; cbn [negb].
  - msimpl. exists w1, true. split; [reflexivity|]. split; [reflexivity|].
    unfold new_events, new_files. rewrite !skipn_all. auto.
  - unfold bind at 1. unfold bind at 1. unfold print at 1.
    match goal with |- context [except_exception ?m ?h ?w0] =>
      destruct (except_exception m h w0) as [w2 r2] eqn:Hd
    end.
    apply debug_section_run in Hd as (-> & evs & He & Hcalls).
    msimpl. exists w2, false. split; [reflexivity|]. split; [reflexivity|].
    assert (He' : effect w1 w2 evs [] (server w2)).
    { unfold effect in *. cbn in He. exact He. }
    apply new_events_effect in He' as (-> & ->). auto.
Qed.

End WorkflowRuns.

(** ** The further properties on the scripted server *)

Lemma get_all_shots_fails_open_witness :
  exists w',
    get_all_shots (Demo.client Demo.no_construct) Demo.start = (w', Ok []).
Proof.
  destruct (get_all_shots_fails_open (Demo.client Demo.no_construct) Demo.start
              (s' := tt)
              (e := Demo.error 500 "Internal Server Error" None) eq_refl)
    as (w' & Hrun & _).
  exists w'. exact Hrun.
Defined.

Lemma get_all_shots_malformed_witness :
  exists w',
    get_all_shots (Demo.client (Demo.usual Demo.broken_reel)) Demo.start
    = (w', Raise (TypeError "'NoneType' object is not iterable")).
Proof.
  apply (get_all_shots_malformed (Demo.client (Demo.usual Demo.broken_reel))
           Demo.start (s' := tt) (construct := Some Demo.broken_reel)).
  - reflexivity.
  - reflexivity.
Defined.

Lemma get_all_shots_without_slots_witness :
  exists w', get_all_shots (Demo.client Demo.vacant) Demo.start = (w', Ok []).
Proof.
  apply (get_all_shots_without_slots (Demo.client Demo.vacant) Demo.start
           (s' := tt) (construct := None)).
  - reflexivity.
  - left. reflexivity.
Defined.

Lemma get_render_queue_result_witness :
  exists w',
    get_render_queue (Demo.client (Demo.usual Demo.reel)) Demo.start
    = (w', Ok []).
Proof.
  destruct (get_render_queue_result (Demo.client (Demo.usual Demo.reel))
              Demo.start (s' := tt) (reply := Ok None) eq_refl)
    as (w' & Hrun & _).
  exists w'. exact Hrun.
Defined.

Lemma list_projects_result_witness :
  exists w',
    list_projects (Demo.client (Demo.usual Demo.reel)) Demo.start
    = (w', Ok [Demo.project]).
Proof.
  destruct (list_projects_result (Demo.client (Demo.usual Demo.reel))
              Demo.start (s' := tt) (reply := Ok (Some [Demo.project]))
              eq_refl I)
    as (w' & Hrun & _).
  exists w'. exact Hrun.
Defined.

Lemma get_groups_returns_listing_witness :
  exists w',
    get_groups (Demo.client (Demo.usual Demo.reel)) true Demo.start
    = (w', Ok [Demo.group_a; Demo.group_b]).
Proof.
  destruct (get_groups_returns_listing (Demo.client (Demo.usual Demo.reel))
              true Demo.start (s' := tt)
              (groups := [Demo.group_a; Demo.group_b]) eq_refl)
    as (w' & Hrun & _).
  exists w'. exact Hrun.
Defined.

Lemma get_groups_fails_open_iff_witness :
  exists w', get_groups (Demo.client Demo.explained) true Demo.start = (w', Ok []).
Proof.
  destruct (get_groups_fails_open_iff (Demo.client Demo.explained) true
              Demo.start (s' := tt)
              (e := Demo.error 500 "Internal Server Error"
                      (Some (Structured "{}" "{}"))) eq_refl)
    as (w' & r & Hrun & Hiff & _).
  exists w'. rewrite Hrun. f_equal. apply Hiff. eexists; eexists; reflexivity.
Defined.

Lemma select_group_tracks_current_witness :
  exists w',
    select_group (Demo.client (Demo.usual Demo.reel)) "group-b" Demo.start
    = (w', Ok Demo.group_b)
    /\ current_group w' = Some Demo.group_b.
Proof.
  destruct (select_group_tracks_current (Demo.client (Demo.usual Demo.reel))
              "group-b" Demo.start (s' := tt) (reply := Ok Demo.group_b)
              eq_refl)
    as (w' & Hrun & _ & Hcurrent & _).
  exists w'. split; [exact Hrun | exact Hcurrent].
Defined.

Lemma get_current_construct_tracks_current_witness :
  exists w',
    get_current_construct (Demo.client Demo.no_construct) Demo.start
    = (w', Raise (ApiError (Demo.error 500 "Internal Server Error" None)))
    /\ current_construct w' = None.
Proof.
  destruct (get_current_construct_tracks_current
              (Demo.client Demo.no_construct) Demo.start (s' := tt)
              (reply := Raise (ApiError
                                 (Demo.error 500 "Internal Server Error" None)))
              eq_refl)
    as (w' & Hrun & _ & Hcurrent & _).
  exists w'. split; [exact Hrun | exact Hcurrent].
Defined.


Lemma get_system_info_result_witness :
  exists w',
    get_system_info (Demo.client (Demo.usual Demo.reel)) Demo.start
    = (w', Ok Demo.system).
Proof.
  destruct (get_system_info_result (Demo.client (Demo.usual Demo.reel))
              Demo.start (s' := tt) (reply := Ok Demo.system) eq_refl I)
    as (w' & Hrun & _).
  exists w'. exact Hrun.
Defined.

Lemma enter_project_unstructured_error_witness :
  exists w',
    enter_project (Demo.client Demo.garbled) "Project" Demo.start
    = (w', Raise (ValueError "Expecting value")).
Proof.
  apply (enter_project_unstructured_error (Demo.client Demo.garbled) "Project"
           Demo.start (s1 := tt) (exit_reply := Ok tt) (s2 := tt)
           (e := Demo.error 502 "Bad Gateway"
                   (Some (Unstructured "<html>Bad Gateway</html>")))
           (raw := "<html>Bad Gateway</html>")).
  - reflexivity.
  - exact I.
  - reflexivity.
  - reflexivity.
Defined.

Lemma thumbnail_bounds_witness :
  List.length
    (thumbnail_requests
       (new_events Demo.start
          (fst (browse_project (Demo.client (Demo.usual Demo.long_reel))
                  "Project" None Demo.start))))
  <= 5.
Proof.
  apply (thumbnail_bounds (Demo.client (Demo.usual Demo.long_reel)) "Project"
           None Demo.start
           (w' := fst (browse_project (Demo.client (Demo.usual Demo.long_reel))
                         "Project" None Demo.start))
           (r := snd (browse_project (Demo.client (Demo.usual Demo.long_reel))
                        "Project" None Demo.start))).
  apply surjective_pairing.
Defined.

Lemma playback_pushed_last_witness :
  snd (browse_project (Demo.client (Demo.usual Demo.reel)) "Project" None
         Demo.start)
  = Ok true <-> Returned = Returned.
Proof.
  apply (playback_pushed_last (Demo.client (Demo.usual Demo.reel)) "Project"
           None Demo.start
           (w' := fst (browse_project (Demo.client (Demo.usual Demo.reel))
                         "Project" None Demo.start))
           review_playmode Returned).
  - apply surjective_pairing.
  - vm_compute. do 13 right. left. reflexivity.
Defined.

Lemma player_failure_aborts_witness :
  snd (browse_project Demo.stuck_player "Project" None Demo.start) = Ok false.
Proof.
  apply (player_failure_aborts Demo.stuck_player "Project" None Demo.start
           (w' := fst (browse_project Demo.stuck_player "Project" None
                         Demo.start))
           (ApiError (Demo.error 409 "Conflict" None))).
  - apply surjective_pairing.
  - vm_compute. do 12 right. left. reflexivity.
Defined.

Lemma opening_failure_aborts_witness :
  snd (browse_project (Demo.client Demo.locked) "Project" None Demo.start)
  = Ok false.
Proof.
  apply (opening_failure_aborts (Demo.client Demo.locked) "Project" None
           Demo.start
           (w' := fst (browse_project (Demo.client Demo.locked) "Project" None
                         Demo.start))
           (Api.do_application_project_enter "Project")
           (ApiError (Demo.error 403 "Forbidden" None))).
  - apply surjective_pairing.
  - reflexivity.
  - vm_compute. do 2 right. left. reflexivity.
Defined.

Lemma no_groups_aborts_witness :
  exists w',
    browse_project (Demo.client Demo.no_groups) "Project" None Demo.start
    = (w', Ok false).
Proof.
  destruct (no_groups_aborts (Demo.client Demo.no_groups) "Project" None
              Demo.start
              (w3 := fst (list_groups_of (Demo.client Demo.no_groups) "Project"
                            (fst (banner Demo.start)))))
    as (w' & Hrun & _).
  - vm_compute. reflexivity.
  - exists w'. exact Hrun.
Defined.

Lemma no_shots_aborts_witness :
  exists w',
    browse_project (Demo.client (Demo.usual (Demo.timeline []))) "Project" None
      Demo.start
    = (w', Ok false).
Proof.
  destruct (no_shots_aborts (Demo.client (Demo.usual (Demo.timeline [])))
              "Project" None Demo.start
              (w3 := fst (list_groups_of
                            (Demo.client (Demo.usual (Demo.timeline [])))
                            "Project" (fst (banner Demo.start))))
              (w5 := fst (collect_shots_of
                            (Demo.client (Demo.usual (Demo.timeline [])))
                            Demo.group_b
                            (fst (list_groups_of
                                    (Demo.client (Demo.usual (Demo.timeline [])))
                                    "Project" (fst (banner Demo.start))))))
              (groups := [Demo.group_a; Demo.group_b])
              (target_group := Demo.group_b))
    as (w' & Hrun & _).
  - vm_compute. reflexivity.
  - discriminate.
  - vm_compute. reflexivity.
  - vm_compute. reflexivity.
  - exists w'. exact Hrun.
Defined.
